(** * bib2html: BibTeX entries to an HTML bibliography

    A shallow embedding of [src/web/bib2html.py] and the properties of its
    loader (crossref inheritance), name formatter, venue renderer, entry
    renderer, bibliography assembler and command-line driver.

    Python [str] values are sequences of Unicode code points and are modelled
    as [list N]; a [dict] is an insertion-ordered association list; code that
    can raise runs in the result monad [Res]. *)

From Stdlib Require Import Strings.String Strings.Ascii Numbers.DecimalString.
From Stdlib Require Import List NArith ZArith Bool Arith Lia.
From Stdlib Require Import Sorting.Permutation Sorting.Sorted.
Import ListNotations.
Local Open Scope list_scope.

(** ** Python strings *)

Definition codepoint := N.
Definition str := list codepoint.

(** [u "abc"] is the Python literal ['abc'] (ASCII literals only). *)
Definition u (s : string) : str := map N_of_ascii (list_ascii_of_string s).
Arguments u s%_string.

Definition dq : str := [34%N].          (* the double-quote character *)
Definition en_dash : str := [8211%N].   (* U+2013 *)
Definition nbsp_char : str := [160%N].  (* U+00A0 *)
Definition middle_dot : str := [183%N]. (* U+00B7 *)
Definition nl : str := [10%N].

Definition str_eqb (a b : str) : bool :=
  if list_eq_dec N.eq_dec a b then true else false.

(** Truth value of a string: [bool(s)]. *)
Definition truthy (s : str) : bool :=
  match s with [] => false | _ :: _ => true end.

(** [Py_UNICODE_ISSPACE]: the characters [str.strip()] removes and the
    regular-expression class [\s] matches on [str] patterns. *)
Definition isspace (c : codepoint) : bool :=
  ((9 <=? c) && (c <=? 13) || (28 <=? c) && (c <=? 32)
   || (c =? 133) || (c =? 160) || (c =? 5760)
   || (8192 <=? c) && (c <=? 8202)
   || (c =? 8232) || (c =? 8233) || (c =? 8239) || (c =? 8287)
   || (c =? 12288))%N.

Fixpoint dropwhile (p : codepoint -> bool) (s : str) : str :=
  match s with
  | [] => []
  | c :: r => if p c then dropwhile p r else s
  end.

Fixpoint takewhile (p : codepoint -> bool) (s : str) : str :=
  match s with
  | [] => []
  | c :: r => if p c then c :: takewhile p r else []
  end.

Definition lstrip (s : str) : str := dropwhile isspace s.
Definition rstrip (s : str) : str := rev (dropwhile isspace (rev s)).
(** [s.strip()] *)
Definition strip (s : str) : str := lstrip (rstrip s).

(** [s.startswith(p)] *)
Fixpoint startswith (p s : str) : bool :=
  match p, s with
  | [], _ => true
  | _ :: _, [] => false
  | a :: p', b :: s' => (a =? b)%N && startswith p' s'
  end.

(** [s.endswith(p)] *)
Definition endswith (p s : str) : bool := startswith (rev p) (rev s).

(** [sub in s] *)
Fixpoint contains (sub s : str) : bool :=
  startswith sub s ||
  match s with
  | [] => false
  | _ :: r => contains sub r
  end.

(** [sep.join(parts)] *)
Fixpoint join (sep : str) (parts : list str) : str :=
  match parts with
  | [] => []
  | [a] => a
  | a :: rest => a ++ sep ++ join sep rest
  end.

(** [s.count(sub)] for a non-empty [sub]: occurrences are counted from the
    left without overlap; [skip] characters of the last occurrence are
    still to be passed over. *)
Fixpoint count_from (sub s : str) (skip : nat) : nat :=
  match s with
  | [] => 0
  | _ :: r =>
      match skip with
      | S k => count_from sub r k
      | O => if startswith sub s
             then S (count_from sub r (length sub - 1))
             else count_from sub r 0
      end
  end.

Definition count (sub s : str) : nat := count_from sub s 0.

(** [str(n)] for a non-negative integer. *)
Definition str_of_nat (n : nat) : str :=
  u (NilZero.string_of_uint (Nat.to_uint n)).

(** [f'{n:4d}']: right-aligned in a field of width four. *)
Definition fmt_4d (n : nat) : str :=
  let d := str_of_nat n in
  repeat 32%N (4 - length d) ++ d.

(** ** Regular expressions of the source

    [re.sub] and [re.split] scan from the left; at each position the
    pattern is tried once ([m] gives the length of the match at the head
    of the text); the three patterns of the source are greedy with no
    alternative that could succeed where the greedy reading fails, and
    none matches the empty string. *)

Fixpoint re_sub_scan (m : str -> option nat) (repl s : str) (skip : nat) : str :=
  match s with
  | [] => []
  | c :: r =>
      match skip with
      | S k => re_sub_scan m repl r k
      | O =>
          match m s with
          | Some (S n) => repl ++ re_sub_scan m repl r n
          | _ => c :: re_sub_scan m repl r 0
          end
      end
  end.

Fixpoint re_split_scan (m : str -> option nat) (s : str) (skip : nat)
         (cur : str) : list str :=
  match s with
  | [] => [cur]
  | c :: r =>
      match skip with
      | S k => re_split_scan m r k cur
      | O =>
          match m s with
          | Some (S n) => cur :: re_split_scan m r n []
          | _ => re_split_scan m r 0 (cur ++ [c])
          end
      end
  end.

Definition is_hyphen (c : codepoint) : bool := (c =? 45)%N.

(** The pattern [\s*-{1,2}\s*] at the head of [s]. *)
Definition match_dash (s : str) : option nat :=
  let w1 := takewhile isspace s in
  match dropwhile isspace s with
  | h1 :: r1 =>
      if is_hyphen h1 then
        match r1 with
        | h2 :: r2 =>
            if is_hyphen h2
            then Some (length w1 + 2 + length (takewhile isspace r2))
            else Some (length w1 + 1 + length (takewhile isspace r1))
        | [] => Some (length w1 + 1)
        end
      else None
  | [] => None
  end.

(** [re.sub(r'\s*-{1,2}\s*', '–', p)] *)
Definition sub_dash (p : str) : str := re_sub_scan match_dash en_dash p 0.

(** A letter of the pattern under [re.IGNORECASE]: the letter or its capital. *)
Definition ieq (lower_c c : codepoint) : bool :=
  ((c =? lower_c) || (c =? lower_c - 32))%N.

(** The pattern [\s+and\s+] with [re.IGNORECASE] at the head of [s]. *)
Definition match_and (s : str) : option nat :=
  let w1 := takewhile isspace s in
  match w1, dropwhile isspace s with
  | _ :: _, a :: n :: d :: r =>
      if ieq 97%N a && ieq 110%N n && ieq 100%N d then
        match takewhile isspace r with
        | [] => None
        | w2 => Some (length w1 + 3 + length w2)
        end
      else None
  | _, _ => None
  end.

(** [re.split(r'\s+and\s+', s, flags=re.IGNORECASE)] *)
Definition split_and (s : str) : list str := re_split_scan match_and s 0 [].

(** Removal of a literal prefix, when it is there. *)
Fixpoint strip_prefix (p s : str) : option str :=
  match p, s with
  | [], _ => Some s
  | _ :: _, [] => None
  | a :: p', b :: s' => if (a =? b)%N then strip_prefix p' s' else None
  end.

Definition opt_prefix (p s : str) : str :=
  match strip_prefix p s with Some r => r | None => s end.

(** [re.sub(r'^https?://(dx\.)?doi\.org/', '', doi)] *)
Definition strip_doi_resolver (doi : str) : str :=
  match strip_prefix (u "http") doi with
  | None => doi
  | Some r1 =>
      match strip_prefix (u "://") (opt_prefix (u "s") r1) with
      | None => doi
      | Some r2 =>
          match strip_prefix (u "doi.org/") (opt_prefix (u "dx.") r2) with
          | Some r3 => r3
          | None => doi
          end
      end
  end.

(** ** Exceptions *)

(** The exceptions of the modelled code; [OSError] stands for a file that
    cannot be read. *)
Inductive exn : Set := KeyError | ValueError | IndexError | OSError.

Inductive Res (A : Type) : Type :=
| Ok (a : A)
| Raise (e : exn).

Arguments Ok {A} a.
Arguments Raise {A} e.

Definition bind {A B : Type} (c : Res A) (k : A -> Res B) : Res B :=
  match c with
  | Ok a => k a
  | Raise e => Raise e
  end.

Notation "x <- c ;; k" := (bind c (fun x => k))
  (at level 61, c at next level, right associativity).

Fixpoint mapM {A B : Type} (f : A -> Res B) (l : list A) : Res (list B) :=
  match l with
  | [] => Ok []
  | a :: r => b <- f a ;; bs <- mapM f r ;; Ok (b :: bs)
  end.

(** [l[i]] for a non-negative index. *)
Definition item {A : Type} (l : list A) (i : nat) : Res A :=
  match nth_error l i with
  | Some a => Ok a
  | None => Raise IndexError
  end.

(** [l[-1]] *)
Definition last_item {A : Type} (l : list A) : Res A :=
  match rev l with
  | a :: _ => Ok a
  | [] => Raise IndexError
  end.

(** ** Dictionaries

    A Python [dict] keeps its keys in insertion order; assigning to a key
    already present replaces the value in place. *)

Section Assoc.
Variables (K V : Type) (keq : K -> K -> bool).

Fixpoint assoc_get (d : list (K * V)) (k : K) : option V :=
  match d with
  | [] => None
  | (k', v) :: r => if keq k' k then Some v else assoc_get r k
  end.

Fixpoint assoc_set (d : list (K * V)) (k : K) (v : V) : list (K * V) :=
  match d with
  | [] => [(k, v)]
  | (k', v') :: r =>
      if keq k' k then (k', v) :: r else (k', v') :: assoc_set r k v
  end.

End Assoc.

Arguments assoc_get {K V} keq d k.
Arguments assoc_set {K V} keq d k v.

(** An entry: field name to value. *)
Definition dict := list (str * str).

(** [d.get(k)] *)
Definition dict_get (d : dict) (k : str) : option str := assoc_get str_eqb d k.
(** [d[k] = v] *)
Definition dict_set (d : dict) (k v : str) : dict := assoc_set str_eqb d k v.
(** [d.get(k, dflt)] *)
Definition get_or (d : dict) (k dflt : str) : str :=
  match dict_get d k with Some v => v | None => dflt end.
(** [d[k]] *)
Definition dict_index (d : dict) (k : str) : Res str :=
  match dict_get d k with Some v => Ok v | None => Raise KeyError end.
(** [not d.get(k)] *)
Definition missing (d : dict) (k : str) : bool :=
  match dict_get d k with Some v => negb (truthy v) | None => true end.

(** [l[i] = x] on the list of entry objects (the index is in range where the
    source assigns). *)
Fixpoint list_update {A : Type} (l : list A) (i : nat) (x : A) : list A :=
  match l, i with
  | [], _ => []
  | _ :: r, O => x :: r
  | a :: r, S j => a :: list_update r j x
  end.

(** ** The runtime's Unicode tables

    What [str.lower], [str.isdigit] and [int] do beyond Latin-1 depends on
    the Unicode database of the interpreter; it is a parameter.
    [int_max_str_digits] is [sys.get_int_max_str_digits()] (0: no limit). *)

Record Runtime : Type := {
  str_lower : str -> str;
  uni_isdigit : codepoint -> bool;
  uni_decimal : codepoint -> option N;
  int_max_str_digits : nat
}.

(** One character of [str.isdigit]: a decimal digit or a character of
    numeric type Digit; in Latin-1 these are 0-9 and the superscripts
    U+00B2, U+00B3, U+00B9. *)
Definition isdigit_cp (rt : Runtime) (c : codepoint) : bool :=
  if (c <? 256)%N
  then ((48 <=? c) && (c <=? 57) || (c =? 178) || (c =? 179) || (c =? 185))%N
  else uni_isdigit rt c.

(** [s.isdigit()] *)
Definition isdigit (rt : Runtime) (s : str) : bool :=
  truthy s && forallb (isdigit_cp rt) s.

(** The decimal value of a character ([Py_UNICODE_TODECIMAL]); in Latin-1
    only 0-9 have one. *)
Definition decimal_cp (rt : Runtime) (c : codepoint) : option N :=
  if (c <? 256)%N
  then (if (48 <=? c) && (c <=? 57) then Some (c - 48) else None)%N
  else uni_decimal rt c.

Fixpoint int_digits (rt : Runtime) (s : str) (acc : Z) : Res Z :=
  match s with
  | [] => Ok acc
  | c :: r =>
      match decimal_cp rt c with
      | Some d => int_digits rt r (10 * acc + Z.of_N d)%Z
      | None => Raise ValueError
      end
  end.

(** [int(s)] for a text of digit characters (no sign, blank or underscore):
    [ValueError] when a character has no decimal value, and when the text
    is longer than the conversion limit (which is never below 640). *)
Definition py_int (rt : Runtime) (s : str) : Res Z :=
  if (640 <? length s) && (0 <? int_max_str_digits rt)
     && (int_max_str_digits rt <? length s)
  then Raise ValueError
  else match s with
       | [] => Raise ValueError
       | _ => int_digits rt s 0%Z
       end.

(** ** 1. Loading *)

(** What the parser hands over ([library.entries]): the entry type, the
    citation key and the fields; a field value is given by its [str()]
    image, [None] when the parser left it empty. *)
Record bib_field : Type := { field_key : str; field_value : option str }.
Record bib_entry : Type := {
  entry_type : str;
  key : str;
  fields : list bib_field
}.

Definition build_entry (rt : Runtime) (entry : bib_entry) : dict :=
  fold_left
    (fun d field =>
       dict_set d (str_lower rt (field_key field))
                (match field_value field with Some v => v | None => [] end))
    (fields entry)
    [(u "_type", str_lower rt (entry_type entry)); (u "_key", key entry)].

(** [entry_map = {e['_key']: e for e in entries}]: the entries are shared
    objects, so the map holds the position of each in [entries]. *)
Fixpoint entry_map_from (i : nat) (entries : list dict)
         (m : list (str * nat)) : Res (list (str * nat)) :=
  match entries with
  | [] => Ok m
  | e :: r =>
      k <- dict_index e (u "_key") ;;
      entry_map_from (S i) r (assoc_set str_eqb m k i)
  end.

Definition entry_map (entries : list dict) : Res (list (str * nat)) :=
  entry_map_from 0 entries [].

(** The inner loop: [for field, value in parent.items(): ...] on child [e]. *)
Definition inherit_field (e : dict) (fv : str * str) : dict :=
  let (field, value) := fv in
  if startswith (u "_") field then e
  else if missing e field then dict_set e field value
  else e.

Definition inherit (parent e : dict) : dict :=
  fold_left inherit_field parent e.

(** One turn of [for e in entries], on the entry at position [i]; [store]
    is the current state of all entry objects. *)
Definition resolve_step (emap : list (str * nat)) (store : list dict)
           (i : nat) : list dict :=
  match nth_error store i with
  | None => store
  | Some e =>
      let xref_key := strip (get_or e (u "crossref") []) in
      if negb (truthy xref_key) then store
      else
        match assoc_get str_eqb emap xref_key with
        | None => store
        | Some j =>
            match nth_error store j with
            | None => store
            | Some [] => store
            | Some parent => list_update store i (inherit parent e)
            end
        end
  end.

Definition resolve_crossrefs (entries : list dict) : Res (list dict) :=
  emap <- entry_map entries ;;
  Ok (fold_left (resolve_step emap) (seq 0 (length entries)) entries).

(** [load_bibliography], from the parsed library on. *)
Definition load_bibliography (rt : Runtime) (library : list bib_entry)
  : Res (list dict) :=
  resolve_crossrefs (map (build_entry rt) library).

(** ** 2. Author / name handling *)

Definition _parse_names (name_str : str) : list str :=
  filter truthy (map strip (split_and name_str)).

(** [s.split(',', 1)] *)
Fixpoint split_comma_once (s : str) (before : str) : list str :=
  match s with
  | [] => [before]
  | c :: r => if (c =? 44)%N then [before; r]
              else split_comma_once r (before ++ [c])
  end.

Definition _format_name (name : str) : Res str :=
  let name := strip name in
  if contains (u ",") name then
    let parts := split_comma_once name [] in
    p0 <- item parts 0 ;;
    p1 <- item parts 1 ;;
    let last := strip p0 in
    let first := strip p1 in
    Ok (first ++ u " " ++ last)
  else Ok name.

Definition _format_name_list (name_str : str) : Res str :=
  let names := _parse_names name_str in
  formatted <- mapM _format_name names ;;
  if length formatted =? 0 then Ok []
  else if length formatted =? 1 then item formatted 0
  else if length formatted =? 2 then
    f0 <- item formatted 0 ;;
    f1 <- item formatted 1 ;;
    Ok (f0 ++ u " and " ++ f1)
  else
    z <- last_item formatted ;;
    Ok (join (u ", ") (removelast formatted) ++ u ", and " ++ z).

Definition _author_matches (rt : Runtime) (name_str filter_str : str) : bool :=
  contains (str_lower rt filter_str) (str_lower rt name_str).

(** ** 3. Field helpers *)

Fixpoint _get (entry : dict) (keys : list str) (default : str) : str :=
  match keys with
  | [] => default
  | k :: r =>
      let v := strip (get_or entry k []) in
      if truthy v then v else _get entry r default
  end.

Definition _pages (entry : dict) : str :=
  let p := _get entry [u "pages"] [] in
  if negb (truthy p) then []
  else u "pp.&nbsp;" ++ sub_dash p.

Definition _doi_link (doi : str) : str :=
  if negb (truthy doi) then []
  else
    let doi := strip doi in
    let '(url, display) :=
      if startswith (u "http") doi
      then (doi, strip_doi_resolver doi)
      else (u "https://doi.org/" ++ doi, doi) in
    u "DOI: <a href=" ++ dq ++ url ++ dq ++ u ">" ++ display ++ u "</a>".

(** ** 4. Venue rendering per entry type *)

(** [if c: parts.append(x)] *)
Definition part (c x : str) : list str := if truthy c then [x] else [].

(** [if c: venue += x] *)
Definition opt (c x : str) : str := if truthy c then x else [].

Definition is_type (etype : str) (names : list string) : bool :=
  existsb (fun n => str_eqb etype (u n)) names.

Definition venue_of_type (entry : dict) (etype : str) : Res str :=
  let booktitle := _get entry [u "booktitle"] [] in
  let journal   := _get entry [u "journal"] [] in
  let publisher := _get entry [u "publisher"] [] in
  let school    := _get entry [u "school"] [] in
  let series    := _get entry [u "series"] [] in
  let volume    := _get entry [u "volume"] [] in
  let number    := _get entry [u "number"] [] in
  let address   := _get entry [u "address"] [] in
  let isbn      := _get entry [u "isbn"] [] in
  let note      := _get entry [u "note"] [] in
  let editor    := _get entry [u "editor"] [] in
  let pages     := _pages entry in
  if is_type etype ["inproceedings"%string] then
    Ok (opt booktitle (u "In <i>" ++ booktitle ++ u "</i>")
        ++ opt address (u ", " ++ address)
        ++ opt pages (u ", " ++ pages))
  else if is_type etype ["article"%string] then
    let venue :=
      opt journal
          (u "<i>" ++ journal ++ u "</i>"
           ++ opt volume (u " <b>" ++ volume ++ u "</b>"
                          ++ opt number (u "(" ++ number ++ u ")"))) in
    Ok (venue ++ opt pages (opt venue (u ", ") ++ pages))
  else if is_type etype ["book"%string] then
    Ok (join (u ". ")
             (part series series ++ part publisher publisher
              ++ part address address ++ part isbn (u "ISBN " ++ isbn)))
  else if is_type etype ["incollection"%string; "inbook"%string] then
    ed <- (if truthy editor
           then names <- _format_name_list editor ;;
                Ok [u "In " ++ names ++ u " (ed.),"]
           else Ok []) ;;
    Ok (join (u " ")
             (ed ++ part booktitle (u "<i>" ++ booktitle ++ u "</i>")
              ++ part publisher publisher ++ part pages pages))
  else if is_type etype ["phdthesis"%string; "masterthesis"%string;
                         "mastersthesis"%string] then
    let label := if contains (u "phd") etype
                 then u "PhD thesis" else u "Master's thesis" in
    Ok (label ++ opt school (u ", " ++ school))
  else if is_type etype ["techreport"%string] then
    let inst := _get entry [u "institution"] [] in
    let num := _get entry [u "number"] [] in
    Ok (u "Technical Report" ++ opt num (u " " ++ num)
        ++ opt inst (u ", " ++ inst))
  else if is_type etype ["proceedings"%string] then
    Ok (join (u ", ")
             (part publisher publisher ++ part address address
              ++ part isbn (u "ISBN " ++ isbn)))
  else Ok note.

Definition venue_links (url doi : str) : list str :=
  part url
       (if contains (u "aclanthology") url
           || contains (u "aclweb.org/anthology") url
        then u "<a href=" ++ dq ++ url ++ dq ++ u ">ACL Anthology</a>"
        else u "<a href=" ++ dq ++ url ++ dq ++ u ">" ++ url ++ u "</a>")
  ++ part doi (_doi_link doi).

Definition _venue_html (entry : dict) : Res str :=
  let etype := get_or entry (u "_type") [] in
  let url := _get entry [u "url"] [] in
  let doi := _get entry [u "doi"] [] in
  let note := _get entry [u "note"] [] in
  venue <- venue_of_type entry etype ;;
  let links := venue_links url doi in
  let venue :=
    match links with
    | [] => venue
    | _ =>
        let sep := if truthy venue && negb (endswith (u ".") venue)
                   then u ". "
                   else if truthy venue then u " " else [] in
        venue ++ sep ++ join (u "; ") links
    end in
  let venue :=
    if truthy note && negb (contains note venue)
    then venue ++ u " (" ++ note ++ u ")"
    else venue in
  Ok (strip venue).

(** ** 5. Single-entry rendering *)

Definition _render_entry (entry : dict) : Res str :=
  let key := get_or entry (u "_key") [] in
  let year := _get entry [u "year"] [] in
  let title := _get entry [u "title"] [] in
  let url := _get entry [u "url"] [] in
  let author := _get entry [u "author"] [] in
  let editor := _get entry [u "editor"] [] in
  let person_raw := if truthy author then author else editor in
  let role_suffix :=
    if negb (truthy author) && truthy editor then u " (eds)" else [] in
  person_str <- (if truthy person_raw
                 then names <- _format_name_list person_raw ;;
                      Ok (names ++ role_suffix)
                 else Ok (u "Unknown")) ;;
  let title_el :=
    if truthy url
    then u "<a class=" ++ dq ++ u "bib-title" ++ dq ++ u " href=" ++ dq
         ++ url ++ dq ++ u ">" ++ title ++ u "</a>"
    else u "<span class=" ++ dq ++ u "bib-title" ++ dq ++ u ">" ++ title
         ++ u "</span>" in
  let id_attr := opt key (u " id=" ++ dq ++ key ++ dq) in
  let person_year := person_str ++ u " (" ++ year ++ u ")." in
  venue <- _venue_html entry ;;
  Ok (u "<div class=" ++ dq ++ u "bib-entry" ++ dq ++ id_attr ++ u ">" ++ nl
      ++ u "  <span class=" ++ dq ++ u "bib-meta" ++ dq ++ u ">"
      ++ person_year ++ u "</span>" ++ nl
      ++ u "  " ++ title_el ++ u "." ++ nl
      ++ opt venue (u "  <span class=" ++ dq ++ u "bib-venue" ++ dq ++ u ">"
                    ++ venue ++ u "</span>" ++ nl)
      ++ u "</div>").

(** ** 6. Full bibliography *)

(** The filtering step: [visible]. *)
Definition visible_entries (rt : Runtime) (entries : list dict)
           (author_filter : option str) : list dict :=
  match author_filter with
  | Some f =>
      if truthy f
      then filter (fun e => _author_matches rt
                              (_get e [u "author"; u "editor"] []) f)
                  entries
      else entries
  | None => entries
  end.

(** [d[k].append(x)] on a [defaultdict(list)] *)
Definition bucket_append {K A : Type} (keq : K -> K -> bool)
           (d : list (K * list A)) (k : K) (x : A) : list (K * list A) :=
  assoc_set keq d k
            (match assoc_get keq d k with Some l => l ++ [x] | None => [x] end).

(** [d[k]] on a [defaultdict(list)] *)
Definition bucket {K A : Type} (keq : K -> K -> bool)
           (d : list (K * list A)) (k : K) : list A :=
  match assoc_get keq d k with Some l => l | None => [] end.

Definition year_of (e : dict) : str := _get e [u "year"] (u "undated").

Definition group_by_year (visible : list dict) : list (str * list dict) :=
  fold_left (fun by_year e => bucket_append str_eqb by_year (year_of e) e)
            visible [].

(** [sorted(xs, reverse=True, key=...)] is stable: elements with equal keys
    keep their order. [insert_desc] puts an element in front of the first
    one whose key is not larger. *)
Fixpoint insert_desc {A : Type} (x : Z * A) (l : list (Z * A)) : list (Z * A) :=
  match l with
  | [] => [x]
  | y :: r => if (fst y <=? fst x)%Z then x :: l else y :: insert_desc x r
  end.

Fixpoint sort_desc {A : Type} (l : list (Z * A)) : list (Z * A) :=
  match l with
  | [] => []
  | x :: r => insert_desc x (sort_desc r)
  end.

(** [lambda y: int(y) if y.isdigit() else 0] *)
Definition year_key (rt : Runtime) (y : str) : Res Z :=
  if isdigit rt y then py_int rt y else Ok 0%Z.

Definition sorted_years (rt : Runtime) (by_year : list (str * list dict))
  : Res (list str) :=
  keyed <- mapM (fun y => k <- year_key rt y ;; Ok (k, y)) (map fst by_year) ;;
  Ok (map snd (sort_desc keyed)).

Definition group_by_decade (rt : Runtime) (nav_years : list str)
  : Res (list (Z * list str)) :=
  fold_left
    (fun acc y =>
       by_decade <- acc ;;
       n <- py_int rt y ;;
       Ok (bucket_append Z.eqb by_decade ((n / 10) * 10)%Z y))
    nav_years (Ok []).

Definition year_link (y : str) : str :=
  u "<a href=" ++ dq ++ u "#" ++ y ++ dq ++ u ">" ++ y ++ u "</a>".

Definition nav_of (rt : Runtime) (years : list str) : Res str :=
  let nav_years := filter (isdigit rt) years in
  by_decade <- group_by_decade rt nav_years ;;
  let decades := map snd (sort_desc (map (fun d => (d, d)) (map fst by_decade))) in
  let row_strs :=
    map (fun decade =>
           join (u " " ++ middle_dot ++ u " ")
                (map year_link (bucket Z.eqb by_decade decade)))
        decades in
  Ok (u "<p class=" ++ dq ++ u "bib-nav" ++ dq ++ u ">" ++ nl ++ u "  "
      ++ join (nl ++ u "  <br>" ++ nl ++ u "  ") row_strs
      ++ nl ++ u "</p>").

Definition year_label (year : str) : str :=
  if str_eqb year (u "undated") then u "Undated" else year.

Definition year_section (by_year : list (str * list dict)) (year : str)
  : Res str :=
  let label := year_label year in
  rendered <- mapM _render_entry (bucket str_eqb by_year year) ;;
  let body := join (nl ++ nl) rendered in
  Ok (u "<h3 id=" ++ dq ++ label ++ dq ++ u ">" ++ label ++ u "</h3>" ++ nl
      ++ u "<div class=" ++ dq ++ u "bib-section" ++ dq ++ u ">" ++ nl ++ nl
      ++ body ++ nl ++ nl ++ u "</div>").

(** The year sections of the output, in output order. *)
Definition section_years (rt : Runtime) (entries : list dict)
           (author_filter : option str) : Res (list str) :=
  sorted_years rt (group_by_year (visible_entries rt entries author_filter)).

Definition render_bibliography (rt : Runtime) (entries : list dict)
           (author_filter : option str) : Res str :=
  let visible := visible_entries rt entries author_filter in
  let by_year := group_by_year visible in
  years <- sorted_years rt by_year ;;
  nav_html <- nav_of rt years ;;
  sections <- mapM (year_section by_year) years ;;
  Ok (nav_html ++ nl ++ nl ++ u "<hr>" ++ nl ++ nl
      ++ join (nl ++ nl ++ nl) sections).

(** ** 7. Command line *)

Record cli_run : Type := {
  stdout : list str;                 (* the lines printed *)
  written : list (str * str);        (* file name, content *)
  status : Res nat                   (* exit status, or the uncaught exception *)
}.

(** The script body. Reading and parsing the files is the parser's work
    ([parse]); [repr] is Python's [repr] of the list of paths. The two
    [write_text] calls are taken to return here; [main_fs] below is the
    script with calls that can raise. *)
Definition main (rt : Runtime) (parse : list str -> Res (list bib_entry))
           (repr : list str -> str) (argv : list str) : cli_run :=
  if length argv <? 2 then
    {| stdout := [u "Usage: python bib2html.py [abb.bib] main.bib"];
       written := []; status := Ok 1 |}
  else
    let paths := tl argv in
    let out1 := [u "Loading: " ++ repr paths] in
    match (library <- parse paths ;; load_bibliography rt library) with
    | Raise e => {| stdout := out1; written := []; status := Raise e |}
    | Ok all_entries =>
        let out2 := out1 ++ [u "Loaded " ++ str_of_nat (length all_entries)
                               ++ u " entries."] in
        match render_bibliography rt all_entries None with
        | Raise e => {| stdout := out2; written := []; status := Raise e |}
        | Ok html_all =>
            match render_bibliography rt all_entries (Some (u "Bond")) with
            | Raise e => {| stdout := out2; written := []; status := Raise e |}
            | Ok html_bond =>
                {| stdout :=
                     out2 ++
                     [u "Written bib_all.html and bib_bond.html.";
                      u "  All entries  : "
                        ++ fmt_4d (count (u "<dt>") html_all) ++ u " items";
                      u "  Bond entries : "
                        ++ fmt_4d (count (u "<dt>") html_bond) ++ u " items"];
                   written := [(u "bib_all.html", html_all);
                               (u "bib_bond.html", html_bond)];
                   status := Ok 0 |}
            end
        end
    end.


(** A runtime whose tables stop at Latin-1: ASCII lower-casing, no digit
    beyond Latin-1, the default conversion limit. *)
Definition ascii_lower_cp (c : codepoint) : codepoint :=
  if ((65 <=? c) && (c <=? 90))%N then (c + 32)%N else c.

Definition latin1_runtime : Runtime :=
  {| str_lower := map ascii_lower_cp;
     uni_isdigit := fun _ => false;
     uni_decimal := fun _ => None;
     int_max_str_digits := 4300 |}.


(** Two states of the interpreter with the same Unicode digit tables
    (those behind [str.isdigit] and [int] beyond Latin-1). *)
Definition same_digit_tables (rt1 rt2 : Runtime) : Prop :=
  (forall c, (256 <= c)%N -> uni_isdigit rt1 c = uni_isdigit rt2 c) /\
  (forall c, (256 <= c)%N -> uni_decimal rt1 c = uni_decimal rt2 c).

(** ** Notions used to state the properties *)

(** The position of the last entry whose citation key is [k]: the entry
    the key-to-entry index of the loader keeps for [k]. *)
Fixpoint last_pos (k : str) (entries : list dict) : option nat :=
  match entries with
  | [] => None
  | e :: r =>
      match last_pos k r with
      | Some j => Some (S j)
      | None =>
          match dict_get e (u "_key") with
          | Some k' => if str_eqb k' k then Some 0 else None
          | None => None
          end
      end
  end.

(** The key an entry's crossref field names. *)
Definition crossref_of (e : dict) : str := strip (get_or e (u "crossref") []).

(** The state of the parent object when the child at position [i] is
    reached: entries before [i] have been through their own turn. *)
Definition parent_at (entries out : list dict) (i j : nat) : option dict :=
  if j <? i then nth_error out j else nth_error entries j.

(** What one turn of the loop makes of entry [e], the objects being in
    state [store]. *)
Definition turn (emap : list (str * nat)) (store : list dict) (e : dict)
  : dict :=
  if negb (truthy (crossref_of e)) then e
  else
    match assoc_get str_eqb emap (crossref_of e) with
    | None => e
    | Some j =>
        match nth_error store j with
        | None => e
        | Some [] => e
        | Some parent => inherit parent e
        end
    end.

(** An entry that carries a citation key. *)
Definition has_key (e : dict) : Prop :=
  exists v, dict_get e (u "_key") = Some v.

(** A field name the loader reserves. *)
Definition reserved (field : str) : bool := startswith (u "_") field.

Definition wf_dict (d : dict) : Prop := NoDup (map fst d).

(** ** Sample inputs *)

Definition mk_field (k v : string) : bib_field :=
  {| field_key := u k; field_value := Some (u v) |}.

(** The parent and child of the crossref example. *)
Definition acl_library : list bib_entry :=
  [ {| entry_type := u "inproceedings"; key := u "paper";
       fields := [mk_field "crossref" "acl2020"; mk_field "title" "A Paper"] |};
    {| entry_type := u "proceedings"; key := u "acl2020";
       fields := [mk_field "booktitle" "Proc. ACL"; mk_field "year" "2020"] |} ].

(** A crossref chain of depth two in which each parent stands before its
    child: the volume, a part of the volume, a paper of the part. *)
Definition chain_library : list bib_entry :=
  [ {| entry_type := u "proceedings"; key := u "volume";
       fields := [mk_field "year" "2020"] |};
    {| entry_type := u "proceedings"; key := u "part";
       fields := [mk_field "crossref" "volume";
                  mk_field "booktitle" "Proc. ACL"] |};
    {| entry_type := u "inproceedings"; key := u "paper";
       fields := [mk_field "crossref" "part"; mk_field "title" "A Paper"] |} ].

(** The journal article of the venue example. *)
Definition jair_entry : dict :=
  [(u "_type", u "article"); (u "journal", u "JAIR"); (u "volume", u "10");
   (u "number", u "2"); (u "pages", u "1-20")].

(** A text of blanks only, and a text with no blank and no hyphen in it
    (a page number). *)
Definition blank (w : str) : bool := forallb isspace w.
Definition plain_char (c : codepoint) : bool :=
  negb (isspace c) && negb (is_hyphen c).
Definition plain (s : str) : bool := forallb plain_char s.

(** ** The name formatter in the words of its specification *)

(** Prose-list conjunction: no name gives the empty text, one name itself,
    two names "A and B", three or more "A, B, ..., and Z". *)
Definition prose_join (names : list str) : str :=
  match names with
  | [] => []
  | [a] => a
  | [a; b] => a ++ u " and " ++ b
  | _ => join (u ", ") (removelast names) ++ u ", and " ++ last names []
  end.

(** The text before the first comma and the text after it. *)
Fixpoint cut_at_comma (s : str) : option (str * str) :=
  match s with
  | [] => None
  | c :: r =>
      if (c =? 44)%N then Some ([], r)
      else match cut_at_comma r with
           | Some (a, b) => Some (c :: a, b)
           | None => None
           end
  end.

(** "Last, First" becomes "First Last"; a name without comma is unchanged. *)
Definition display_name (name : str) : str :=
  let name := strip name in
  match cut_at_comma name with
  | Some (last, first) => strip first ++ u " " ++ strip last
  | None => name
  end.

(** A separator between names: the word "and" in any mix of cases, with at
    least one blank on each side. *)
Definition is_sep (sep : str) : Prop :=
  exists w1 a n d w2,
    sep = w1 ++ [a; n; d] ++ w2 /\
    w1 <> [] /\ w2 <> [] /\ blank w1 = true /\ blank w2 = true /\
    ieq 97%N a = true /\ ieq 110%N n = true /\ ieq 100%N d = true.

(** No separator starts inside [s], also when a blank follows [s]. *)
Fixpoint sep_free (s : str) : bool :=
  match s with
  | [] => true
  | _ :: r =>
      match match_and (s ++ [32%N]) with
      | None => sep_free r
      | Some _ => false
      end
  end.

(** A name as it stands between separators: it begins and ends with a
    non-blank character and holds no separator. *)
Definition clean_name (s : str) : bool :=
  match s with
  | [] => false
  | c :: _ => negb (isspace c) && negb (isspace (last s 0%N)) && sep_free s
  end.

(** ** The assembler in the words of its specification *)

Definition citation_key (e : dict) : str := get_or e (u "_key") [].

(** The author field or, when there is none (missing, empty or blank), the
    editor field; surrounding blanks removed. *)
Definition author_or_editor (e : dict) : str :=
  let author := strip (get_or e (u "author") []) in
  if truthy author then author else strip (get_or e (u "editor") []).

(** The distinct texts of a list, in order of first appearance. *)
Definition first_seen (l : list str) : list str :=
  fold_left (fun acc y => if existsb (str_eqb y) acc then acc else acc ++ [y])
            l [].

(** Descending order of the sort keys, and the elements with a given key. *)
Definition desc {A : Type} (p q : Z * A) : Prop := (fst q <= fst p)%Z.

Definition with_key {A : Type} (k : Z) (p : Z * A) : bool := (fst p =? k)%Z.


(** Entries with a year, and one without. *)
Definition dated (k y : string) : dict :=
  [(u "_type", u "misc"); (u "_key", u k); (u "year", u y)].
Definition undated_entry (k : string) : dict :=
  [(u "_type", u "misc"); (u "_key", u k)].

Definition years_example : list dict :=
  [dated "a" "2019"; dated "b" "2021"; undated_entry "c"; dated "d" "2005"].

(** An input in which the undated bucket is seen first, followed by a year
    that is no number and by the year 0. *)
Definition undated_first_example : list dict :=
  [undated_entry "a"; dated "b" "in press"; dated "c" "0"].

(** An entry whose year is the superscript two, U+00B2. *)
Definition superscript_year_entry : dict :=
  [(u "_type", u "misc"); (u "_key", u "k"); (u "year", [178%N])].


(** The output of the year-ordering example. *)
Definition years_example_html : str :=
  Eval vm_compute in
    match render_bibliography latin1_runtime years_example None with
    | Ok s => s
    | Raise _ => []
    end.

(** Two dictionaries that hold the same value, or none, under every key. *)
Definition dict_equiv (d d' : dict) : Prop :=
  forall k, dict_get d k = dict_get d' k.

(** Buckets with the same keys in the same order and equivalent entries. *)
Definition groups_equiv (g g' : list (str * list dict)) : Prop :=
  Forall2 (fun p q => fst p = fst q /\ Forall2 dict_equiv (snd p) (snd q)) g g'.

(** A library of one article by Bond, and the marker of a rendered entry. *)
Definition bond_library : list bib_entry :=
  [ {| entry_type := u "article"; key := u "bond2020";
       fields := [mk_field "author" "Bond, Francis";
                  mk_field "title" "A Paper"; mk_field "year" "2020"] |} ].

Definition entry_marker : str := u "<div class=" ++ dq ++ u "bib-entry" ++ dq.



(** A text without comma. *)
Definition no_comma (s : str) : bool := forallb (fun c => negb (c =? 44)%N) s.

(** ** Further notions *)

(** A text without the hyphen character. *)
Definition no_hyphen (s : str) : bool := forallb (fun c => negb (is_hyphen c)) s.

(** The entry types that have a venue rule of their own. *)
Definition known_types : list string :=
  ["inproceedings"; "article"; "book"; "incollection"; "inbook"; "phdthesis";
   "masterthesis"; "mastersthesis"; "techreport"; "proceedings"]%string.

(** A text of the ten ASCII digits only. *)
Definition ascii_digits (s : str) : bool :=
  forallb (fun c => (48 <=? c) && (c <=? 57))%N s.

(** The value the loader stores for a field. *)
Definition stored_value (f : bib_field) : str :=
  match field_value f with Some v => v | None => [] end.

(** The addresses of the DOI resolver that the link display strips. *)
Definition resolver_prefixes : list str :=
  [u "https://doi.org/"; u "http://doi.org/"; u "https://dx.doi.org/";
   u "http://dx.doi.org/"].

(** No field of the entry is itself named like a reserved field. *)
Definition plain_fields (rt : Runtime) (entry : bib_entry) : Prop :=
  forall f, In f (fields entry) ->
            str_lower rt (field_key f) <> u "_key" /\
            str_lower rt (field_key f) <> u "_type".

(** The rows of the navigation bar before they are written out: the
    decades in the order of the rows, each with its years. *)
Definition nav_rows (rt : Runtime) (years : list str)
  : Res (list (Z * list str)) :=
  let nav_years := filter (isdigit rt) years in
  by_decade <- group_by_decade rt nav_years ;;
  let decades :=
    map snd (sort_desc (map (fun d => (d, d)) (map fst by_decade))) in
  Ok (map (fun decade => (decade, bucket Z.eqb by_decade decade)) decades).

(** The year [y] is a number of the decade [d]. *)
Definition in_decade (rt : Runtime) (d : Z) (y : str) : bool :=
  match py_int rt y with
  | Ok n => ((n / 10) * 10 =? d)%Z
  | Raise _ => false
  end.

(** [a] stands before [b] in descending order of the numbers they denote. *)
Definition number_desc (rt : Runtime) (a b : str) : Prop :=
  exists ka kb, py_int rt a = Ok ka /\ py_int rt b = Ok kb /\ (kb <= ka)%Z.

(** One turn of the loop that groups the navigation years by decade. *)
Definition decade_step (rt : Runtime) (acc : Res (list (Z * list str)))
           (y : str) : Res (list (Z * list str)) :=
  by_decade <- acc ;;
  n <- py_int rt y ;;
  Ok (bucket_append Z.eqb by_decade ((n / 10) * 10)%Z y).

(** ** The routes ([src/web/routes.py], [src/fcb/routes.py])

    [render_template] belongs to the web framework; a call of it is kept
    as the template name and the context it is given ([nav] itself is
    passed in every call and left out). *)

Definition nav : list (str * dict) :=
  [(u "home", [(u "name", u "Home");
               (u "desc", u "Francis Bond's Humble home page")]);
   (u "cv", [(u "name", u "CV");
             (u "desc", u "All too much about Francis Bond")]);
   (u "pubs", [(u "name", u "Publications"); (u "desc", [])]);
   (u "recipes", [(u "name", u "Recipes");
                  (u "desc", u "Some food I like to cook")]);
   (u "erdos", [(u "name", u "Erd" ++ [337%N] ++ u "s Number");
                (u "desc", u "How many papers to get me to Paul Erd"
                           ++ [337%N] ++ u "s")])].

Record template_call : Type := {
  template : str;
  ctx_page : str;
  ctx_title : str;
  ctx_description : str;
  ctx_bib_html : option str
}.

(** [nav[page]] *)
Definition nav_index (page : str) : Res dict :=
  match assoc_get str_eqb nav page with
  | Some info => Ok info
  | None => Raise KeyError
  end.

(** [show(page)]: the arguments are evaluated before the call. *)
Definition show (page : str) : Res template_call :=
  info <- nav_index page ;;
  title <- dict_index info (u "name") ;;
  info' <- nav_index page ;;
  description <- dict_index info' (u "desc") ;;
  Ok {| template := page ++ u ".html"; ctx_page := page;
        ctx_title := title; ctx_description := description;
        ctx_bib_html := None |}.

(** [home()] *)
Definition home : Res template_call := show (u "home").

(** [pubs()] of [src/web/routes.py]; [bib_html] is the module's
    [_BIB_HTML]. *)
Definition pubs (bib_html : str) : Res template_call :=
  info <- nav_index (u "pubs") ;;
  title <- dict_index info (u "name") ;;
  info' <- nav_index (u "pubs") ;;
  description <- dict_index info' (u "desc") ;;
  Ok {| template := u "pubs.html"; ctx_page := u "pubs";
        ctx_title := title; ctx_description := description;
        ctx_bib_html := Some bib_html |}.

(** The pages the navigation table knows. *)
Definition nav_pages : list str :=
  [u "home"; u "cv"; u "pubs"; u "recipes"; u "erdos"].

(* ================================================================== *)
(** * Properties *)

(** ** Strings and dictionaries *)

Lemma str_eqb_eq (a b : str) : str_eqb a b = true <-> a = b.
Proof.
  unfold str_eqb. destruct (list_eq_dec N.eq_dec a b); split; congruence.
Qed.

Lemma str_eqb_refl (a : str) : str_eqb a a = true.
Proof. now apply str_eqb_eq. Qed.

Lemma str_eqb_neq (a b : str) : str_eqb a b = false <-> a <> b.
Proof.
  unfold str_eqb. destruct (list_eq_dec N.eq_dec a b); split; congruence.
Qed.

Lemma truthy_nonempty (s : str) : truthy s = true <-> s <> [].
Proof. destruct s; simpl; split; congruence. Qed.

Lemma truthy_false (s : str) : truthy s = false <-> s = [].
Proof. destruct s; simpl; split; congruence. Qed.

Lemma assoc_get_set_same {V : Type} (d : list (str * V)) (k : str) (v : V) :
  assoc_get str_eqb (assoc_set str_eqb d k v) k = Some v.
Proof.
  induction d as [|[k' v'] r IH]; simpl.
  - now rewrite str_eqb_refl.
  - destruct (str_eqb k' k) eqn:E; simpl; rewrite E; auto.
Qed.

Lemma assoc_get_set_other {V : Type} (d : list (str * V)) (k k2 : str) (v : V) :
  k <> k2 ->
  assoc_get str_eqb (assoc_set str_eqb d k v) k2 = assoc_get str_eqb d k2.
Proof.
  intros Hne.
  induction d as [|[k' v'] r IH]; simpl.
  - destruct (str_eqb k k2) eqn:E; auto. apply str_eqb_eq in E. contradiction.
  - destruct (str_eqb k' k) eqn:E; simpl.
    + apply str_eqb_eq in E. subst k'.
      destruct (str_eqb k k2) eqn:E2; auto.
      apply str_eqb_eq in E2. contradiction.
    + now rewrite IH.
Qed.

Lemma dict_get_set_same (d : dict) (k v : str) :
  dict_get (dict_set d k v) k = Some v.
Proof. apply assoc_get_set_same. Qed.

Lemma dict_get_set_other (d : dict) (k k2 v : str) :
  k <> k2 -> dict_get (dict_set d k v) k2 = dict_get d k2.
Proof. apply assoc_get_set_other. Qed.

Lemma dict_get_none_keys (d : dict) (k : str) :
  dict_get d k = None <-> ~ In k (map fst d).
Proof.
  unfold dict_get. induction d as [|[k' v'] r IH]; simpl.
  - tauto.
  - destruct (str_eqb k' k) eqn:E.
    + apply str_eqb_eq in E. split; [discriminate | intros H; exfalso; auto].
    + apply str_eqb_neq in E. rewrite IH. tauto.
Qed.

Lemma dict_set_keys (d : dict) (k v : str) :
  map fst (dict_set d k v) =
  if existsb (str_eqb k) (map fst d) then map fst d else map fst d ++ [k].
Proof.
  unfold dict_set. induction d as [|[k' v'] r IH]; simpl; auto.
  destruct (str_eqb k' k) eqn:E; simpl.
  - apply str_eqb_eq in E. subst. now rewrite str_eqb_refl.
  - rewrite IH. destruct (str_eqb k k') eqn:E2.
    + apply str_eqb_eq in E2. apply str_eqb_neq in E. congruence.
    + simpl. now destruct (existsb (str_eqb k) (map fst r)).
Qed.

Lemma existsb_str_In (k : str) (l : list str) :
  existsb (str_eqb k) l = true <-> In k l.
Proof.
  rewrite existsb_exists. split.
  - intros (x & Hx & E). apply str_eqb_eq in E. now subst.
  - intros H. exists k. split; auto. apply str_eqb_refl.
Qed.

Lemma dict_set_wf (d : dict) (k v : str) : wf_dict d -> wf_dict (dict_set d k v).
Proof.
  unfold wf_dict. intros H. rewrite dict_set_keys.
  destruct (existsb (str_eqb k) (map fst d)) eqn:E; auto.
  apply NoDup_app; auto.
  - repeat constructor. simpl. tauto.
  - intros x Hx [Hk|[]]. subst x.
    apply existsb_str_In in Hx. congruence.
Qed.

Lemma dict_set_nonempty (d : dict) (k v : str) : dict_set d k v <> [].
Proof.
  unfold dict_set. destruct d as [|[k' v'] r]; simpl; try discriminate.
  destruct (str_eqb k' k); discriminate.
Qed.

(** ** Crossref inheritance *)

Section Inheritance.

Lemma missing_spec (e : dict) (f : str) :
  missing e f = true <-> dict_get e f = None \/ dict_get e f = Some [].
Proof.
  unfold missing. destruct (dict_get e f) as [[|c v]|]; simpl;
    (split; [intros H | intros [H|H]]); try discriminate; auto.
Qed.

Lemma inherit_field_get (e : dict) (g v f : str) :
  dict_get (inherit_field e (g, v)) f =
  if negb (reserved g) && missing e g && str_eqb g f
  then Some v else dict_get e f.
Proof.
  unfold inherit_field, reserved.
  destruct (startswith (u "_") g); simpl; auto.
  destruct (missing e g); simpl; auto.
  destruct (str_eqb g f) eqn:E.
  - apply str_eqb_eq in E. subst. apply dict_get_set_same.
  - apply str_eqb_neq in E. now apply dict_get_set_other.
Qed.

Lemma inherit_reserved (parent e : dict) (f : str) :
  reserved f = true -> dict_get (inherit parent e) f = dict_get e f.
Proof.
  intros Hr. revert e. unfold inherit.
  induction parent as [|[g v] r IH]; intros e; cbn [fold_left]; auto.
  rewrite IH, inherit_field_get.
  destruct (str_eqb g f) eqn:E; [|now rewrite andb_false_r].
  apply str_eqb_eq in E. subst g. now rewrite Hr.
Qed.

Lemma inherit_present (parent e : dict) (f v : str) :
  dict_get e f = Some v -> v <> [] -> dict_get (inherit parent e) f = Some v.
Proof.
  revert e. unfold inherit.
  induction parent as [|[g w] r IH]; intros e Hg Hv; cbn [fold_left]; auto.
  apply IH; auto. rewrite inherit_field_get.
  destruct (str_eqb g f) eqn:E; [|now rewrite andb_false_r].
  apply str_eqb_eq in E. subst g.
  assert (missing e f = false) as ->.
  { unfold missing. rewrite Hg. destruct v; simpl; congruence. }
  now rewrite andb_false_r.
Qed.

Lemma inherit_absent (parent e : dict) (f : str) :
  dict_get parent f = None -> dict_get (inherit parent e) f = dict_get e f.
Proof.
  revert e. unfold inherit.
  induction parent as [|[g w] r IH]; intros e Hn; cbn [fold_left]; auto.
  unfold dict_get in Hn. cbn [assoc_get] in Hn.
  destruct (str_eqb g f) eqn:E; [discriminate|].
  rewrite IH by exact Hn.
  rewrite inherit_field_get, E. now rewrite andb_false_r.
Qed.

Lemma inherit_copied (parent e : dict) (f v : str) :
  wf_dict parent -> reserved f = false -> missing e f = true ->
  dict_get parent f = Some v -> dict_get (inherit parent e) f = Some v.
Proof.
  revert e. unfold wf_dict.
  induction parent as [|[g w] r IH]; intros e Hwf Hr Hm Hp.
  - discriminate.
  - simpl in Hwf. inversion Hwf as [|? ? Hnotin Hnd]; subst.
    change (inherit ((g, w) :: r) e) with (inherit r (inherit_field e (g, w))).
    unfold dict_get in Hp. simpl in Hp.
    destruct (str_eqb g f) eqn:E.
    + apply str_eqb_eq in E. subst g. injection Hp as ->.
      rewrite inherit_absent by (now apply dict_get_none_keys).
      rewrite inherit_field_get, Hr, Hm, str_eqb_refl. reflexivity.
    + apply IH; auto.
      unfold missing. rewrite inherit_field_get, E, andb_false_r. exact Hm.
Qed.

Lemma inherit_field_wf (e : dict) (fv : str * str) :
  wf_dict e -> wf_dict (inherit_field e fv).
Proof.
  destruct fv as [g v]. unfold inherit_field. intros H.
  destruct (startswith (u "_") g); auto.
  destruct (missing e g); auto using dict_set_wf.
Qed.

Lemma inherit_wf (parent e : dict) : wf_dict e -> wf_dict (inherit parent e).
Proof.
  revert e. unfold inherit.
  induction parent as [|fv r IH]; intros e H; cbn [fold_left];
    auto using inherit_field_wf.
Qed.

Lemma inherit_field_nonempty (e : dict) (fv : str * str) :
  e <> [] -> inherit_field e fv <> [].
Proof.
  destruct fv as [g v]. unfold inherit_field. intros H.
  destruct (startswith (u "_") g); auto.
  destruct (missing e g); auto using dict_set_nonempty.
Qed.

Lemma inherit_nonempty (parent e : dict) : e <> [] -> inherit parent e <> [].
Proof.
  revert e. unfold inherit.
  induction parent as [|fv r IH]; intros e H; cbn [fold_left];
    auto using inherit_field_nonempty.
Qed.

(** An entry that names itself inherits nothing. *)
Lemma inherit_field_self (e : dict) (g v : str) :
  dict_get e g = Some v -> inherit_field e (g, v) = e.
Proof.
  unfold inherit_field, missing. intros Hg.
  destruct (startswith (u "_") g); auto.
  rewrite Hg. destruct (truthy v); simpl; auto.
  unfold dict_get, dict_set in *.
  induction e as [|[k' v'] r IH]; simpl in *; [discriminate|].
  destruct (str_eqb k' g); [congruence|]. now rewrite IH.
Qed.

End Inheritance.

(** ** The resolution pass *)

Section Resolution.

Variable emap : list (str * nat).

Lemma list_update_length {A : Type} (l : list A) (i : nat) (x : A) :
  length (list_update l i x) = length l.
Proof.
  revert i. induction l as [|a r IH]; intros [|i]; simpl; auto.
Qed.

Lemma nth_error_list_update_eq {A : Type} (l : list A) (i : nat) (x : A) :
  i < length l -> nth_error (list_update l i x) i = Some x.
Proof.
  revert i. induction l as [|a r IH]; intros [|i] H; simpl in *; try lia; auto.
  apply IH. lia.
Qed.

Lemma nth_error_list_update_neq {A : Type} (l : list A) (i k : nat) (x : A) :
  k <> i -> nth_error (list_update l i x) k = nth_error l k.
Proof.
  revert i k. induction l as [|a r IH]; intros [|i] [|k] H; simpl; auto;
    congruence.
Qed.

Lemma resolve_step_length (store : list dict) (i : nat) :
  length (resolve_step emap store i) = length store.
Proof.
  unfold resolve_step.
  destruct (nth_error store i); auto.
  destruct (negb _); auto.
  destruct (assoc_get _ _ _); auto.
  destruct (nth_error store _) as [[|]|]; auto using list_update_length.
Qed.

Lemma resolve_step_other (store : list dict) (i k : nat) :
  k <> i -> nth_error (resolve_step emap store i) k = nth_error store k.
Proof.
  intros H. unfold resolve_step.
  destruct (nth_error store i); auto.
  destruct (negb _); auto.
  destruct (assoc_get _ _ _); auto.
  destruct (nth_error store _) as [[|]|]; auto using nth_error_list_update_neq.
Qed.

Lemma resolve_step_at (store : list dict) (i : nat) (e : dict) :
  nth_error store i = Some e ->
  nth_error (resolve_step emap store i) i = Some (turn emap store e).
Proof.
  intros H. unfold resolve_step, turn, crossref_of. rewrite H.
  assert (Hi : i < length store) by (apply nth_error_Some; congruence).
  destruct (negb _); auto.
  destruct (assoc_get _ _ _) as [j|]; auto.
  generalize (nth_error store j). intros [[|]|]; auto.
  now apply nth_error_list_update_eq.
Qed.

Lemma resolve_fold_other (l : list nat) (store : list dict) (k : nat) :
  ~ In k l ->
  nth_error (fold_left (resolve_step emap) l store) k = nth_error store k.
Proof.
  revert store. induction l as [|i r IH]; intros store H; simpl; auto.
  rewrite IH by (simpl in H; tauto).
  apply resolve_step_other. simpl in H. intros ->. tauto.
Qed.

Lemma resolve_fold_length (l : list nat) (store : list dict) :
  length (fold_left (resolve_step emap) l store) = length store.
Proof.
  revert store. induction l as [|i r IH]; intros store; simpl; auto.
  now rewrite IH, resolve_step_length.
Qed.

(** Entry [i] of the result is what its own turn made of it, and at that
    turn the entries before [i] were already in their final state. *)
Lemma resolve_fold_entry (entries : list dict) (i : nat) (e : dict) :
  nth_error entries i = Some e ->
  let out := fold_left (resolve_step emap) (seq 0 (length entries)) entries in
  exists store,
    nth_error out i = Some (turn emap store e) /\
    forall j, nth_error store j = parent_at entries out i j.
Proof.
  intros He out.
  assert (Hi : i < length entries) by (apply nth_error_Some; congruence).
  set (before := fold_left (resolve_step emap) (seq 0 i) entries).
  assert (Hout : out = fold_left (resolve_step emap)
                                 (seq (S i) (length entries - S i))
                                 (resolve_step emap before i)).
  { unfold out, before.
    replace (length entries) with (i + S (length entries - S i)) at 1 by lia.
    rewrite seq_app, fold_left_app. reflexivity. }
  assert (Hbi : nth_error before i = Some e).
  { unfold before. rewrite resolve_fold_other; auto.
    rewrite in_seq. lia. }
  exists before. split.
  - rewrite Hout, resolve_fold_other by (rewrite in_seq; lia).
    now apply resolve_step_at.
  - intros j. unfold parent_at. destruct (j <? i) eqn:Hj.
    + apply Nat.ltb_lt in Hj.
      rewrite Hout, resolve_fold_other by (rewrite in_seq; lia).
      rewrite resolve_step_other by lia. reflexivity.
    + apply Nat.ltb_ge in Hj. unfold before.
      apply resolve_fold_other. rewrite in_seq. lia.
Qed.

End Resolution.

(** ** The key-to-entry index *)

Section EntryMap.

Lemma entry_map_from_get (entries : list dict) :
  forall i m m', entry_map_from i entries m = Ok m' ->
  forall k, assoc_get str_eqb m' k =
            match last_pos k entries with
            | Some j => Some (i + j)
            | None => assoc_get str_eqb m k
            end.
Proof.
  induction entries as [|e r IH]; intros i m m' H k.
  - cbn in H. now injection H as ->.
  - cbn [entry_map_from last_pos] in *. unfold bind, dict_index in H.
    destruct (dict_get e (u "_key")) as [k0|]; [|discriminate].
    rewrite (IH _ _ _ H k).
    destruct (last_pos k r) as [j|].
    + f_equal. lia.
    + destruct (str_eqb k0 k) eqn:E.
      * apply str_eqb_eq in E. subst k0.
        rewrite assoc_get_set_same. f_equal. lia.
      * apply str_eqb_neq in E. now apply assoc_get_set_other.
Qed.

Lemma entry_map_get (entries : list dict) (emap : list (str * nat)) (k : str) :
  entry_map entries = Ok emap ->
  assoc_get str_eqb emap k = last_pos k entries.
Proof.
  intros H. rewrite (entry_map_from_get _ _ _ _ H).
  now destruct (last_pos k entries).
Qed.

(** [last_pos] finds the last entry that carries the key. *)
Lemma last_pos_some (k : str) (entries : list dict) (j : nat) :
  last_pos k entries = Some j ->
  exists p, nth_error entries j = Some p /\
            dict_get p (u "_key") = Some k /\
            forall j' p', j < j' -> nth_error entries j' = Some p' ->
                          dict_get p' (u "_key") <> Some k.
Proof.
  revert j. induction entries as [|e r IH]; intros j H; [discriminate|].
  cbn [last_pos] in H.
  destruct (last_pos k r) as [j0|] eqn:El.
  - injection H as <-. destruct (IH _ eq_refl) as (p & Hp & Hk & Hl).
    exists p. repeat split; auto.
    intros [|j'] p' Hlt Hn; [lia|]. apply (Hl j'); auto. lia.
  - destruct (dict_get e (u "_key")) as [k'|] eqn:Ek; [|discriminate].
    destruct (str_eqb k' k) eqn:E; [|discriminate].
    injection H as <-. apply str_eqb_eq in E. subst k'.
    exists e. repeat split; auto.
    intros [|j'] p' Hlt Hn; [lia|]. cbn in Hn.
    clear - El Hn. revert j' Hn.
    induction r as [|a r IHr]; intros [|j'] Hn; try discriminate.
    + cbn in Hn. injection Hn as ->. cbn [last_pos] in El.
      destruct (last_pos k r); [discriminate|].
      destruct (dict_get p' (u "_key")) as [k'|]; [|discriminate].
      destruct (str_eqb k' k) eqn:E; [discriminate|].
      apply str_eqb_neq in E. congruence.
    + cbn in Hn. cbn [last_pos] in El.
      destruct (last_pos k r); [discriminate|]. now apply (IHr eq_refl j').
Qed.

Lemma last_pos_none (k : str) (entries : list dict) :
  last_pos k entries = None ->
  forall p, In p entries -> dict_get p (u "_key") <> Some k.
Proof.
  induction entries as [|e r IH]; intros H p Hin; [destruct Hin|].
  cbn [last_pos] in H. destruct (last_pos k r); [discriminate|].
  destruct Hin as [<-|Hin]; [|now apply IH].
  destruct (dict_get e (u "_key")) as [k'|]; [|discriminate].
  destruct (str_eqb k' k) eqn:E; [discriminate|].
  apply str_eqb_neq in E. congruence.
Qed.

Lemma last_pos_bound (k : str) (entries : list dict) (j : nat) :
  last_pos k entries = Some j -> j < length entries.
Proof.
  intros H. destruct (last_pos_some _ _ _ H) as (p & Hp & _).
  apply nth_error_Some. congruence.
Qed.

Lemma entry_map_from_total (entries : list dict) :
  Forall has_key entries ->
  forall i m, exists m', entry_map_from i entries m = Ok m'.
Proof.
  induction 1 as [|e r [v Hv] _ IH]; intros i m; cbn [entry_map_from].
  - eauto.
  - unfold dict_index. rewrite Hv. cbn [bind]. apply IH.
Qed.

Variable rt : Runtime.

Lemma dict_set_keeps (d : dict) (k k2 v2 : str) :
  (exists v, dict_get d k = Some v) ->
  exists v, dict_get (dict_set d k2 v2) k = Some v.
Proof.
  intros [v Hv]. destruct (list_eq_dec N.eq_dec k2 k) as [->|Hne].
  - rewrite dict_get_set_same. eauto.
  - rewrite dict_get_set_other by assumption. eauto.
Qed.

Lemma build_entry_has_key (b : bib_entry) : has_key (build_entry rt b).
Proof.
  unfold build_entry, has_key.
  generalize (fields b).
  assert (H : exists v, dict_get [(u "_type", str_lower rt (entry_type b));
                                  (u "_key", key b)] (u "_key") = Some v)
    by (eexists; reflexivity).
  revert H. generalize [(u "_type", str_lower rt (entry_type b)); (u "_key", key b)].
  intros d H l. revert d H.
  induction l as [|f l IH]; intros d H; cbn [fold_left]; auto.
  apply IH. now apply dict_set_keeps.
Qed.

Lemma build_entry_wf (b : bib_entry) : wf_dict (build_entry rt b).
Proof.
  unfold build_entry.
  assert (H : wf_dict [(u "_type", str_lower rt (entry_type b)); (u "_key", key b)]).
  { unfold wf_dict. cbn [map fst]. repeat constructor.
    - intros [E|[]]. vm_compute in E. discriminate.
    - intros []. }
  revert H. generalize [(u "_type", str_lower rt (entry_type b)); (u "_key", key b)].
  generalize (fields b). intros l.
  induction l as [|f l IH]; intros d H; cbn [fold_left]; auto.
  apply IH. now apply dict_set_wf.
Qed.

Lemma build_entry_nonempty (b : bib_entry) : build_entry rt b <> [].
Proof.
  intros E. destruct (build_entry_has_key b) as [v Hv].
  rewrite E in Hv. discriminate.
Qed.

End EntryMap.

(** ** What a turn does to an entry *)

Create HintDb crossref.
#[local] Hint Resolve inherit_reserved inherit_present inherit_wf
  inherit_nonempty : crossref.

(** A turn leaves the entry alone or replaces it by [inherit parent e]. *)
Ltac turn_cases :=
  unfold turn;
  destruct (negb _); auto;
  destruct (assoc_get _ _ _) as [?j|]; auto;
  destruct (nth_error _ _) as [[|]|]; auto with crossref.

Section Turn.

Variables (emap : list (str * nat)) (store : list dict).

Lemma turn_reserved (e : dict) (f : str) :
  reserved f = true -> dict_get (turn emap store e) f = dict_get e f.
Proof. intros H. turn_cases. Qed.

Lemma turn_present (e : dict) (f v : str) :
  dict_get e f = Some v -> v <> [] -> dict_get (turn emap store e) f = Some v.
Proof. intros H Hv. turn_cases. Qed.

Lemma turn_wf (e : dict) : wf_dict e -> wf_dict (turn emap store e).
Proof. intros H. turn_cases. Qed.

Lemma turn_nonempty (e : dict) : e <> [] -> turn emap store e <> [].
Proof. intros H. turn_cases. Qed.

End Turn.

(** ** The loader *)

Section Loader.

Variable rt : Runtime.

Lemma built_entries_have_keys (library : list bib_entry) :
  Forall has_key (map (build_entry rt) library).
Proof.
  apply Forall_forall. intros e He.
  apply in_map_iff in He as (b & <- & _). apply build_entry_has_key.
Qed.

Lemma built_entry_at (library : list bib_entry) (i : nat) (e : dict) :
  nth_error (map (build_entry rt) library) i = Some e ->
  wf_dict e /\ e <> [].
Proof.
  intros H. apply nth_error_In, in_map_iff in H as (b & <- & _).
  split; [apply build_entry_wf | apply build_entry_nonempty].
Qed.

(** The loader never fails on a parsed library, and its result is the
    fold of the turns. *)
Lemma load_bibliography_runs (library : list bib_entry) :
  exists emap,
    entry_map (map (build_entry rt) library) = Ok emap /\
    load_bibliography rt library =
    Ok (fold_left (resolve_step emap)
                  (seq 0 (length (map (build_entry rt) library)))
                  (map (build_entry rt) library)).
Proof.
  destruct (entry_map_from_total _ (built_entries_have_keys library) 0 [])
    as [emap Hemap].
  exists emap. split; [exact Hemap|].
  unfold load_bibliography, resolve_crossrefs, entry_map.
  now rewrite Hemap.
Qed.

(** Every entry of the result is a well-formed, non-empty dictionary. *)
Lemma resolved_entry_ok (emap : list (str * nat)) (library : list bib_entry)
      (j : nat) (e : dict) :
  let entries := map (build_entry rt) library in
  nth_error entries j = Some e ->
  exists o,
    nth_error (fold_left (resolve_step emap) (seq 0 (length entries)) entries) j
    = Some o /\ wf_dict o /\ o <> [].
Proof.
  intros entries He.
  destruct (resolve_fold_entry emap entries j e He) as (store & Hout & _).
  destruct (built_entry_at _ _ _ He) as [Hwf Hne].
  exists (turn emap store e).
  split; [exact Hout|]. split; [now apply turn_wf | now apply turn_nonempty].
Qed.

(** C1 (as amended). After [load_bibliography], an entry whose crossref
    field names no key of the collection is as it was loaded. An entry at
    position [i] whose crossref names the key of the entry at position [j]
    (the last entry with that key) has become [inherit parent e], where
    [parent] is the parent object as it stood when the child's turn came:
    as loaded when the parent stands after the child ([i <= j]), and after
    the parent's own inheritance when it stands before the child ([j < i]).
    Field by field: reserved fields are untouched, every field the child had
    non-empty is preserved, every non-reserved field the child lacked (absent
    or empty) and [parent] has is copied, and nothing else changes. The pass
    runs once, over all loaded entries. *)
Theorem load_bibliography_crossref (library : list bib_entry) :
  let entries := map (build_entry rt) library in
  exists out,
    load_bibliography rt library = Ok out /\
    length out = length entries /\
    forall i e, nth_error entries i = Some e ->
      exists e',
        nth_error out i = Some e' /\
        ((crossref_of e = [] \/ last_pos (crossref_of e) entries = None) ->
         e' = e) /\
        (forall j,
            crossref_of e <> [] ->
            last_pos (crossref_of e) entries = Some j ->
            exists parent,
              parent_at entries out i j = Some parent /\
              e' = inherit parent e /\
              forall f,
                (reserved f = true -> dict_get e' f = dict_get e f) /\
                (forall v, dict_get e f = Some v -> v <> [] ->
                           dict_get e' f = Some v) /\
                (forall v, reserved f = false -> missing e f = true ->
                           dict_get parent f = Some v ->
                           dict_get e' f = Some v) /\
                (dict_get parent f = None -> dict_get e' f = dict_get e f)).
Proof.
  intros entries.
  destruct (load_bibliography_runs library) as (emap & Hemap & Hload).
  fold entries in Hemap, Hload.
  set (out := fold_left (resolve_step emap) (seq 0 (length entries)) entries)
    in *.
  exists out. split; [exact Hload|].
  split; [apply resolve_fold_length|].
  intros i e He.
  destruct (resolve_fold_entry emap entries i e He) as (store & Hout & Hstore).
  fold out in Hout, Hstore.
  exists (turn emap store e). split; [exact Hout|]. split.
  - intros [H0|Hn]; unfold turn.
    + now rewrite H0.
    + destruct (negb _); auto.
      now rewrite (entry_map_get _ _ _ Hemap), Hn.
  - intros j Hx Hj.
    assert (Hlt : j < length entries) by (eapply last_pos_bound; eauto).
    assert (Hp : exists parent, parent_at entries out i j = Some parent /\
                                wf_dict parent /\ parent <> []).
    { destruct (nth_error entries j) as [ej|] eqn:Ej;
        [|apply nth_error_None in Ej; lia].
      unfold parent_at. destruct (j <? i).
      - destruct (resolved_entry_ok emap library j ej Ej) as (o & Ho & Hwf & Hne).
        exists o. auto.
      - rewrite Ej. exists ej.
        destruct (built_entry_at _ _ _ Ej). auto. }
    destruct Hp as (parent & Hpa & Hwf & Hne).
    exists parent. split; [exact Hpa|].
    assert (Ht : turn emap store e = inherit parent e).
    { unfold turn. apply truthy_nonempty in Hx. rewrite Hx. cbn [negb].
      rewrite (entry_map_get _ _ _ Hemap), Hj, Hstore, Hpa.
      destruct parent; [congruence | reflexivity]. }
    split; [exact Ht|]. rewrite Ht. intros f. repeat split.
    + now apply inherit_reserved.
    + now apply inherit_present.
    + intros v Hr Hm Hv. now apply inherit_copied.
    + now apply inherit_absent.
Qed.

(** C10. The resolution pass leaves the reserved fields of every entry as
    they were loaded, [_type] and [_key] among them, and overwrites no
    field that was non-empty. *)
Theorem crossref_frame (library : list bib_entry) :
  let entries := map (build_entry rt) library in
  exists out,
    load_bibliography rt library = Ok out /\
    forall i e, nth_error entries i = Some e ->
      exists e',
        nth_error out i = Some e' /\
        dict_get e' (u "_type") = dict_get e (u "_type") /\
        dict_get e' (u "_key") = dict_get e (u "_key") /\
        (forall f, reserved f = true -> dict_get e' f = dict_get e f) /\
        (forall f v, dict_get e f = Some v -> v <> [] ->
                     dict_get e' f = Some v).
Proof.
  intros entries.
  destruct (load_bibliography_runs library) as (emap & Hemap & Hload).
  fold entries in Hemap, Hload.
  eexists. split; [exact Hload|].
  intros i e He.
  destruct (resolve_fold_entry emap entries i e He) as (store & Hout & _).
  exists (turn emap store e). split; [exact Hout|].
  repeat split.
  - now apply turn_reserved.
  - now apply turn_reserved.
  - intros f Hf. now apply turn_reserved.
  - intros f v Hf Hv. now apply turn_present.
Qed.

End Loader.

(** The crossref example: the child gets [booktitle] and [year] from its
    parent and keeps its own [title]. *)
Example crossref_example :
  exists child rest,
    load_bibliography latin1_runtime acl_library = Ok (child :: rest) /\
    dict_get child (u "year") = Some (u "2020") /\
    dict_get child (u "booktitle") = Some (u "Proc. ACL") /\
    dict_get child (u "title") = Some (u "A Paper") /\
    dict_get child (u "_key") = Some (u "paper").
Proof.
  eexists. eexists. split; [vm_compute; reflexivity|].
  repeat split; reflexivity.
Qed.

(** C1, counterexample to "one level only": with each parent standing
    before its child, the paper's parent has no [year] of its own as
    loaded, and the paper ends up with the grandparent's [year]. *)
Lemma crossref_chain_is_followed :
  exists out parent child,
    load_bibliography latin1_runtime chain_library = Ok out /\
    nth_error (map (build_entry latin1_runtime) chain_library) 1 = Some parent /\
    nth_error out 2 = Some child /\
    crossref_of child = u "part" /\
    dict_get parent (u "_key") = Some (u "part") /\
    dict_get parent (u "year") = None /\
    dict_get child (u "year") = Some (u "2020").
Proof.
  eexists. eexists. eexists.
  split; [vm_compute; reflexivity|].
  repeat split; reflexivity.
Qed.

(** ** Venue of a journal article *)

(** C2 (as amended). For an entry of type article with journal JAIR,
    volume 10, number 2 and pages 1-20 (and no url, doi or note), the
    venue is the journal in italics, the volume in bold, the number in
    parentheses, and the pages after "pp." with the HTML entity for a
    no-break space and an en-dash in the range. *)
Theorem venue_journal_article (e : dict) :
  dict_get e (u "_type") = Some (u "article") ->
  dict_get e (u "journal") = Some (u "JAIR") ->
  dict_get e (u "volume") = Some (u "10") ->
  dict_get e (u "number") = Some (u "2") ->
  dict_get e (u "pages") = Some (u "1-20") ->
  dict_get e (u "url") = None ->
  dict_get e (u "doi") = None ->
  dict_get e (u "note") = None ->
  _venue_html e = Ok (u "<i>JAIR</i> <b>10</b>(2), pp.&nbsp;1" ++ en_dash ++ u "20").
Proof.
  intros Ht Hj Hv Hn Hp Hu Hd Hno.
  unfold _venue_html, venue_of_type, _pages, _get, get_or.
  rewrite Ht, Hj, Hv, Hn, Hp, Hu, Hd, Hno.
  vm_compute. reflexivity.
Qed.

Lemma venue_journal_article_witness :
  _venue_html jair_entry
  = Ok (u "<i>JAIR</i> <b>10</b>(2), pp.&nbsp;1" ++ en_dash ++ u "20").
Proof.
  apply (venue_journal_article jair_entry); reflexivity.
Defined.

(** C2, counterexample: the venue does not hold the character U+00A0
    after "pp."; the renderer writes the entity [&nbsp;] there. *)
Lemma venue_journal_article_no_nbsp_char :
  _venue_html jair_entry
  <> Ok (u "<i>JAIR</i> <b>10</b>(2), pp." ++ nbsp_char ++ u "1" ++ en_dash
           ++ u "20").
Proof.
  vm_compute. discriminate.
Qed.

(** ** Page ranges *)

Section Pages.

Lemma isspace_not_hyphen (c : codepoint) : isspace c = true -> is_hyphen c = false.
Proof.
  unfold is_hyphen. intros H. destruct (N.eqb_spec c 45); auto.
  subst c. discriminate.
Qed.

Lemma takewhile_blank_app (w x : str) :
  blank w = true -> takewhile isspace (w ++ x) = w ++ takewhile isspace x.
Proof.
  unfold blank. induction w as [|c w IH]; simpl; auto.
  intros H. apply andb_prop in H as [Hc Hw]. rewrite Hc, IH; auto.
Qed.

Lemma dropwhile_blank_app (w x : str) :
  blank w = true -> dropwhile isspace (w ++ x) = dropwhile isspace x.
Proof.
  unfold blank. induction w as [|c w IH]; simpl; auto.
  intros H. apply andb_prop in H as [Hc Hw]. rewrite Hc, IH; auto.
Qed.

Lemma takewhile_blank_stop (w : str) (c : codepoint) (x : str) :
  blank w = true -> isspace c = false ->
  takewhile isspace (w ++ c :: x) = w.
Proof.
  intros Hw Hc. rewrite takewhile_blank_app by assumption.
  simpl. rewrite Hc. apply app_nil_r.
Qed.

(** The characters of a match just found are passed over. *)
Lemma re_sub_skip (m : str -> option nat) (repl x rest : str) :
  re_sub_scan m repl (x ++ rest) (length x) = re_sub_scan m repl rest 0.
Proof.
  induction x as [|c x IH]; simpl; auto.
Qed.

Lemma sub_dash_plain_prefix (a rest : str) :
  plain a = true ->
  re_sub_scan match_dash en_dash (a ++ rest) 0
  = a ++ re_sub_scan match_dash en_dash rest 0.
Proof.
  unfold plain. induction a as [|c a IH]; intros H; auto.
  cbn [forallb] in H. apply andb_prop in H as [Hc Ha].
  unfold plain_char in Hc. apply andb_prop in Hc as [Hs Hh].
  apply negb_true_iff in Hs, Hh.
  cbn [app re_sub_scan].
  assert (match_dash (c :: a ++ rest) = None) as ->.
  { unfold match_dash. cbn [takewhile dropwhile]. now rewrite Hs, Hh. }
  now rewrite IH.
Qed.

Lemma lstrip_fixed (c : codepoint) (s : str) :
  isspace c = false -> lstrip (c :: s) = c :: s.
Proof. intros H. unfold lstrip. cbn. now rewrite H. Qed.

Lemma rstrip_fixed (s : str) (c : codepoint) :
  isspace c = false -> rstrip (s ++ [c]) = s ++ [c].
Proof.
  intros H. unfold rstrip. rewrite rev_app_distr. cbn. rewrite H.
  cbn. now rewrite rev_involutive.
Qed.

Lemma plain_char_not_space (c : codepoint) :
  plain_char c = true -> isspace c = false.
Proof.
  unfold plain_char. intros H. apply andb_prop in H as [H _].
  now apply negb_true_iff.
Qed.

(** A text that begins and ends with plain characters is its own strip. *)
Lemma strip_range (a m b : str) :
  plain a = true -> a <> [] -> plain b = true -> b <> [] ->
  strip (a ++ m ++ b) = a ++ m ++ b.
Proof.
  intros Ha Hane Hb Hbne. unfold strip.
  destruct (exists_last Hbne) as (b' & z & ->).
  assert (Hz : isspace z = false).
  { unfold plain in Hb. rewrite forallb_app in Hb.
    apply andb_prop in Hb as [_ Hb]. cbn in Hb.
    apply plain_char_not_space. now destruct (plain_char z). }
  replace (a ++ m ++ b' ++ [z]) with ((a ++ m ++ b') ++ [z])
    by (now rewrite <- !app_assoc).
  rewrite rstrip_fixed by assumption.
  destruct a as [|c a]; [congruence|].
  cbn [plain forallb] in Ha. apply andb_prop in Ha as [Hc _].
  cbn [app]. apply lstrip_fixed. now apply plain_char_not_space.
Qed.

End Pages.

(** ** Name formatting *)

Section Names.

Lemma mapM_ok {A B : Type} (f : A -> Res B) (g : A -> B) (l : list A) :
  (forall a, f a = Ok (g a)) -> mapM f l = Ok (map g l).
Proof.
  intros H. induction l as [|a r IH]; cbn [mapM map]; auto.
  now rewrite H, IH.
Qed.

Lemma last_item_last {A : Type} (l : list A) (d : A) :
  l <> [] -> last_item l = Ok (last l d).
Proof.
  intros H. destruct (exists_last H) as (l' & z & ->).
  unfold last_item. rewrite rev_app_distr, last_last. reflexivity.
Qed.

Lemma split_comma_once_cut (s before : str) :
  split_comma_once s before =
  match cut_at_comma s with
  | Some (a, b) => [before ++ a; b]
  | None => [before ++ s]
  end.
Proof.
  revert before. induction s as [|c r IH]; intros before; cbn.
  - now rewrite app_nil_r.
  - destruct (c =? 44)%N.
    + now rewrite app_nil_r.
    + rewrite IH. destruct (cut_at_comma r) as [[a b]|];
        now rewrite <- app_assoc.
Qed.

Lemma contains_comma_cut (s : str) :
  contains (u ",") s = match cut_at_comma s with Some _ => true | None => false end.
Proof.
  change (u ",") with [44%N].
  induction s as [|c r IH]; cbn [contains startswith cut_at_comma]; auto.
  rewrite IH, N.eqb_sym. destruct (c =? 44)%N; cbn; auto.
  now destruct (cut_at_comma r) as [[a b]|].
Qed.

Lemma cut_at_comma_app (last first : str) :
  no_comma last = true -> cut_at_comma (last ++ u "," ++ first) = Some (last, first).
Proof.
  change (u ",") with [44%N]. unfold no_comma.
  induction last as [|c l IH]; cbn [forallb app cut_at_comma]; intros H.
  - reflexivity.
  - apply andb_prop in H as [Hc Hl]. apply negb_true_iff in Hc.
    rewrite Hc. cbn [app] in IH. now rewrite IH.
Qed.

Lemma cut_at_comma_none (s : str) : no_comma s = true -> cut_at_comma s = None.
Proof.
  unfold no_comma. induction s as [|c l IH]; cbn [forallb cut_at_comma]; auto.
  intros H. apply andb_prop in H as [Hc Hl]. apply negb_true_iff in Hc.
  now rewrite Hc, IH.
Qed.

(** [_format_name] never raises: the split at a comma that is there has
    two parts. *)
Lemma _format_name_ok (name : str) : _format_name name = Ok (display_name name).
Proof.
  unfold _format_name, display_name.
  rewrite contains_comma_cut, split_comma_once_cut.
  destruct (cut_at_comma (strip name)) as [[a b]|]; reflexivity.
Qed.

(** [_format_name_list] never raises, and joins as the specification says. *)
Lemma _format_name_list_ok (name_str : str) :
  _format_name_list name_str
  = Ok (prose_join (map display_name (_parse_names name_str))).
Proof.
  unfold _format_name_list.
  rewrite (mapM_ok _ display_name _ _format_name_ok). cbn [bind].
  destruct (map display_name (_parse_names name_str)) as [|a [|b [|c r]]];
    try reflexivity.
  cbn [length Nat.eqb].
  rewrite (last_item_last (a :: b :: c :: r) ([] : str)) by discriminate.
  reflexivity.
Qed.

(** Splitting. *)

Lemma isspace_not_letter (c : codepoint) :
  isspace c = true ->
  ieq 97%N c = false /\ ieq 110%N c = false /\ ieq 100%N c = false.
Proof.
  intros H. unfold ieq.
  repeat split; apply orb_false_iff; split; apply N.eqb_neq; intros ->;
    discriminate.
Qed.

Lemma dropwhile_app_stop (t x : str) :
  dropwhile isspace t <> [] ->
  dropwhile isspace (t ++ x) = dropwhile isspace t ++ x /\
  takewhile isspace (t ++ x) = takewhile isspace t.
Proof.
  induction t as [|c t IH]; cbn; intros H; [congruence|].
  destruct (isspace c); auto.
  destruct (IH H) as [-> ->]. auto.
Qed.

Lemma dropwhile_last_stop (t : str) :
  t <> [] -> isspace (last t 0%N) = false -> dropwhile isspace t <> [].
Proof.
  induction t as [|c t IH]; intros Hne Hl; [congruence|].
  cbn [dropwhile]. destruct (isspace c) eqn:Ec; [|discriminate].
  destruct t as [|c' t']; [cbn in Hl; congruence|].
  apply IH; [discriminate | exact Hl].
Qed.

Lemma dropwhile_head (s : str) (c : codepoint) (r : str) :
  dropwhile isspace s = c :: r -> isspace c = false.
Proof.
  induction s as [|a s IH]; cbn; [discriminate|].
  destruct (isspace a) eqn:Ea; auto. intros E. now injection E as <- <-.
Qed.

(** A separator cannot start inside a name because of what follows the
    name: a blank or the end of the text. *)
Lemma match_and_inside (t rest : str) :
  t <> [] -> isspace (last t 0%N) = false ->
  (rest = [] \/ exists c r, rest = c :: r /\ isspace c = true) ->
  match_and (t ++ [32%N]) = None -> match_and (t ++ rest) = None.
Proof.
  intros Hne Hl Hrest H32.
  pose proof (dropwhile_last_stop t Hne Hl) as Hd.
  unfold match_and in *.
  destruct (dropwhile_app_stop t rest Hd) as [-> ->].
  destruct (dropwhile_app_stop t [32%N] Hd) as [E1 E2].
  rewrite E1, E2 in H32. clear E1 E2.
  destruct (takewhile isspace t) as [|w0 w]; [reflexivity|].
  destruct (dropwhile isspace t) as [|a t1] eqn:Et; [congruence|].
  assert (Hblank : forall x, isspace x = true ->
            ieq 97%N x = false /\ ieq 110%N x = false /\ ieq 100%N x = false)
    by apply isspace_not_letter.
  destruct t1 as [|n t2].
  { (* the name ends after one letter *)
    cbn [app]. destruct Hrest as [-> | (c & r & -> & Hc)]; [reflexivity|].
    destruct r as [|d r]; [reflexivity|].
    destruct (Hblank c Hc) as (_ & -> & _). now rewrite andb_false_r. }
  destruct t2 as [|d t3].
  { cbn [app]. destruct Hrest as [-> | (c & r & -> & Hc)]; [reflexivity|].
    destruct (Hblank c Hc) as (_ & _ & ->). now rewrite andb_false_r. }
  cbn [app] in *.
  destruct (ieq 97%N a && ieq 110%N n && ieq 100%N d); [|reflexivity].
  destruct t3 as [|x t4].
  { cbn in H32. discriminate. }
  cbn [app takewhile] in *.
  destruct (isspace x); [discriminate | reflexivity].
Qed.

(** Scanning over a name: no separator is found in it. *)
Lemma split_over_name (a rest cur : str) :
  sep_free a = true -> (a = [] \/ isspace (last a 0%N) = false) ->
  (rest = [] \/ exists c r, rest = c :: r /\ isspace c = true) ->
  re_split_scan match_and (a ++ rest) 0 cur
  = re_split_scan match_and rest 0 (cur ++ a).
Proof.
  revert cur. induction a as [|c a IH]; intros cur Hf Hl Hrest.
  - now rewrite app_nil_r.
  - destruct Hl as [Hl|Hl]; [discriminate|].
    cbn [sep_free] in Hf.
    destruct (match_and ((c :: a) ++ [32%N])) eqn:E32; [discriminate|].
    pose proof (match_and_inside (c :: a) rest ltac:(discriminate) Hl Hrest E32)
      as Hnone.
    cbn [app re_split_scan]. cbn [app] in Hnone. rewrite Hnone.
    rewrite IH; auto.
    + now rewrite <- app_assoc.
    + destruct a as [|c' a']; [now left | right].
      rewrite <- Hl. reflexivity.
Qed.

Lemma re_split_skip (m : str -> option nat) (x rest cur : str) :
  re_split_scan m (x ++ rest) (length x) cur = re_split_scan m rest 0 cur.
Proof.
  induction x as [|c x IH]; cbn; auto.
Qed.

Lemma match_and_separator (sep rest : str) (c : codepoint) (r : str) :
  is_sep sep -> rest = c :: r -> isspace c = false ->
  match_and (sep ++ rest) = Some (length sep).
Proof.
  intros (w1 & a & n & d & w2 & -> & Hn1 & Hn2 & Hb1 & Hb2 & Ha & Hnn & Hd)
         -> Hc.
  unfold match_and. rewrite <- !app_assoc.
  rewrite takewhile_blank_app, dropwhile_blank_app by assumption.
  assert (Has : isspace a = false).
  { destruct (isspace a) eqn:E; auto.
    destruct (isspace_not_letter a E) as (Hx & _). congruence. }
  cbn [app takewhile dropwhile]. rewrite Has, app_nil_r, Ha, Hnn, Hd.
  cbn [andb].
  rewrite takewhile_blank_stop by assumption.
  destruct w1 as [|x w1]; [congruence|].
  destruct w2 as [|y w2]; [congruence|].
  f_equal. rewrite !length_app. cbn [length]. lia.
Qed.

Lemma is_sep_head (sep : str) :
  is_sep sep -> exists c r, sep = c :: r /\ isspace c = true.
Proof.
  intros (w1 & a & n & d & w2 & -> & Hn1 & _ & Hb1 & _).
  destruct w1 as [|c w1]; [congruence|].
  cbn [blank forallb] in Hb1. apply andb_prop in Hb1 as [Hc _].
  exists c. eexists. split; [reflexivity | exact Hc].
Qed.

Lemma clean_name_parts (s : str) :
  clean_name s = true ->
  exists c r, s = c :: r /\ isspace c = false /\
              isspace (last s 0%N) = false /\ sep_free s = true.
Proof.
  unfold clean_name. destruct s as [|c r]; [discriminate|].
  intros H. apply andb_prop in H as [H H3]. apply andb_prop in H as [H1 H2].
  apply negb_true_iff in H1, H2. exists c, r. auto.
Qed.

Lemma clean_name_strip (s : str) : clean_name s = true -> strip s = s.
Proof.
  intros H. destruct (clean_name_parts s H) as (c & r & -> & Hc & Hl & _).
  unfold strip.
  assert (Hne : c :: r <> []) by discriminate.
  destruct (exists_last Hne) as (l' & z & E). rewrite E in *.
  rewrite last_last in Hl. rewrite rstrip_fixed by assumption.
  rewrite <- E. now apply lstrip_fixed.
Qed.

Lemma join_clean_head (sep : str) (names : list str) :
  names <> [] -> Forall (fun s => clean_name s = true) names ->
  exists c r, join sep names = c :: r /\ isspace c = false.
Proof.
  intros Hne Hall. destruct names as [|a l]; [congruence|].
  inversion Hall as [|? ? Ha _]; subst.
  destruct (clean_name_parts a Ha) as (c & r & -> & Hc & _).
  destruct l; cbn [join app]; eauto.
Qed.

Lemma split_and_join (sep : str) (names : list str) :
  is_sep sep -> names <> [] -> Forall (fun s => clean_name s = true) names ->
  split_and (join sep names) = names.
Proof.
  intros Hsep Hne Hall. unfold split_and.
  induction names as [|a l IH]; [congruence|].
  inversion Hall as [|? ? Ha Hl]; subst.
  destruct (clean_name_parts a Ha) as (c & r & Ea & Hc & Hlast & Hfree).
  destruct l as [|b l].
  - cbn [join]. rewrite <- (app_nil_r a) at 1.
    rewrite split_over_name; auto.
  - change (join sep (a :: b :: l)) with (a ++ sep ++ join sep (b :: l)).
    rewrite split_over_name; auto.
    2:{ right. destruct (is_sep_head sep Hsep) as (x & y & -> & Hx).
        cbn [app]. eauto. }
    destruct (join_clean_head sep (b :: l) ltac:(discriminate) Hl)
      as (c' & r' & Ej & Hc').
    pose proof (match_and_separator sep _ c' r' Hsep Ej Hc') as Hm.
    destruct (is_sep_head sep Hsep) as (x & y & Ex & Hx).
    rewrite Ex in *. cbn [app re_split_scan length] in *.
    rewrite Hm, re_split_skip. cbn [app]. f_equal.
    apply IH; [discriminate | exact Hl].
Qed.

Lemma parse_names_join (sep : str) (names : list str) :
  is_sep sep -> Forall (fun s => clean_name s = true) names ->
  _parse_names (join sep names) = names.
Proof.
  intros Hsep Hall. unfold _parse_names.
  destruct names as [|a l]; [reflexivity|].
  rewrite split_and_join; auto; [|discriminate].
  induction Hall as [|x l' Hx _ IH]; cbn [map filter]; auto.
  rewrite (clean_name_strip x Hx).
  destruct (clean_name_parts x Hx) as (c & r & -> & _).
  cbn [truthy]. now rewrite IH.
Qed.

Lemma is_sep_and : is_sep (u " and ").
Proof.
  exists [32%N], 97%N, 110%N, 100%N, [32%N].
  repeat split; try reflexivity; discriminate.
Qed.

Lemma is_sep_AND : is_sep (u "  AND" ++ [9%N]).
Proof.
  exists [32%N; 32%N], 65%N, 78%N, 68%N, [9%N].
  repeat split; try reflexivity; discriminate.
Qed.

End Names.

Section PagesAnyText.

(** *** Any pages text *)

Lemma takewhile_dropwhile (p : codepoint -> bool) (s : str) :
  takewhile p s ++ dropwhile p s = s.
Proof.
  induction s as [|c s IH]; cbn; auto.
  destruct (p c); cbn; auto. now rewrite IH.
Qed.

Lemma last_app_cons (w : str) (c : codepoint) (r : str) :
  last (w ++ c :: r) 0%N = last (c :: r) 0%N.
Proof.
  induction w as [|x w IH]; auto.
  cbn [app]. rewrite <- IH. destruct w; reflexivity.
Qed.

Lemma plain_char_not_hyphen (c : codepoint) :
  plain_char c = true -> is_hyphen c = false.
Proof.
  unfold plain_char. intros H. apply andb_prop in H as [_ H].
  now apply negb_true_iff.
Qed.

Lemma takewhile_short (t : str) :
  t <> [] -> plain_char (last t 0%N) = true ->
  length (takewhile isspace t) < length t /\
  forall rest, takewhile isspace (t ++ rest) = takewhile isspace t.
Proof.
  intros Hne Hl.
  pose proof (dropwhile_last_stop t Hne (plain_char_not_space _ Hl)) as Hd.
  split.
  - rewrite <- (takewhile_dropwhile isspace t) at 2. rewrite length_app.
    destruct (dropwhile isspace t); [congruence | cbn [length]; lia].
  - intros rest. now destruct (dropwhile_app_stop t rest Hd).
Qed.

(** A match that starts in a text ending with a page-number character lies
    within the text, whatever follows. *)
Lemma match_dash_local (t rest : str) :
  t <> [] -> plain_char (last t 0%N) = true ->
  match_dash (t ++ rest) = match_dash t /\
  forall m, match_dash t = Some m -> m < length t.
Proof.
  intros Hne Hl.
  pose proof (dropwhile_last_stop t Hne (plain_char_not_space _ Hl)) as Hd.
  destruct (dropwhile_app_stop t rest Hd) as [E1 E2].
  unfold match_dash. rewrite E1, E2.
  pose proof (takewhile_dropwhile isspace t) as Htd.
  pose proof (f_equal (@length codepoint) Htd) as Hlen.
  rewrite length_app in Hlen.
  destruct (dropwhile isspace t) as [|h1 r1] eqn:Ed; [congruence|].
  cbn [app]. destruct (is_hyphen h1) eqn:Eh1; [|split; [auto | discriminate]].
  assert (Hl1 : last (h1 :: r1) 0%N = last t 0%N)
    by (rewrite <- Htd; symmetry; apply last_app_cons).
  destruct r1 as [|h2 r2].
  { cbn in Hl1. rewrite <- Hl1 in Hl.
    apply plain_char_not_hyphen in Hl. congruence. }
  assert (Hl2 : plain_char (last (h2 :: r2) 0%N) = true).
  { change (last (h2 :: r2) 0%N) with (last (h1 :: h2 :: r2) 0%N).
    now rewrite Hl1. }
  cbn [app length] in *.
  destruct (is_hyphen h2) eqn:Eh2.
  - assert (Hr2 : r2 <> [] /\ plain_char (last r2 0%N) = true).
    { destruct r2 as [|h3 r3]; [|split; [discriminate | exact Hl2]].
      cbn in Hl2. apply plain_char_not_hyphen in Hl2. congruence. }
    destruct Hr2 as [Hr2 Hl3].
    destruct (takewhile_short r2 Hr2 Hl3) as [Hs Ha].
    rewrite (Ha rest). split; auto.
    intros m Hm. injection Hm as <-. lia.
  - destruct (takewhile_short (h2 :: r2) ltac:(discriminate) Hl2) as [Hs Ha].
    change (h2 :: r2 ++ rest) with ((h2 :: r2) ++ rest).
    rewrite (Ha rest). split; auto.
    cbn [length] in Hs. set (tw := takewhile isspace (h2 :: r2)) in *.
    intros m Hm. injection Hm as <-. lia.
Qed.

(** Scanning a text that ends with a page-number character does not reach
    into what follows it. *)
Lemma sub_dash_prefix (x rest : str) (skip : nat) :
  (x <> [] -> plain_char (last x 0%N) = true) ->
  skip < length x \/ skip = 0 ->
  re_sub_scan match_dash en_dash (x ++ rest) skip
  = re_sub_scan match_dash en_dash x skip
    ++ re_sub_scan match_dash en_dash rest 0.
Proof.
  revert skip. induction x as [|c x IH]; intros skip Hl Hs.
  - destruct Hs as [Hs| ->]; [cbn in Hs; lia | reflexivity].
  - assert (Hx : x <> [] -> plain_char (last x 0%N) = true).
    { intros Hne. rewrite <- Hl by discriminate.
      destruct x; [congruence | reflexivity]. }
    destruct skip as [|k].
    + destruct (match_dash_local (c :: x) rest ltac:(discriminate)
                                 (Hl ltac:(discriminate))) as [Em Hm].
      cbn [app re_sub_scan]. cbn [app] in Em. rewrite Em.
      destruct (match_dash (c :: x)) as [[|n]|] eqn:E.
      * rewrite IH; auto.
      * rewrite IH; auto.
        left. specialize (Hm _ eq_refl). cbn [length] in Hm. lia.
      * rewrite IH; auto.
    + cbn [app re_sub_scan]. apply IH; auto.
      left. destruct Hs as [Hs|Hs]; [cbn [length] in Hs; lia | discriminate].
Qed.

Lemma match_dash_group (w1 h w2 : str) (c : codepoint) (y : str) :
  blank w1 = true -> blank w2 = true -> h = u "-" \/ h = u "--" ->
  plain_char c = true ->
  match_dash ((w1 ++ h ++ w2) ++ c :: y) = Some (length (w1 ++ h ++ w2)).
Proof.
  intros H1 H2 Hh Hc.
  pose proof (plain_char_not_space _ Hc) as Hs.
  pose proof (plain_char_not_hyphen _ Hc) as Hy.
  unfold match_dash. rewrite <- !app_assoc.
  rewrite takewhile_blank_app, dropwhile_blank_app by assumption.
  rewrite !length_app.
  destruct Hh as [-> | ->];
    [change (u "-") with [45%N] | change (u "--") with [45%N; 45%N]];
    cbn [app takewhile dropwhile length];
    change (isspace 45%N) with false; cbn iota;
    change (is_hyphen 45%N) with true; cbn iota.
  - destruct w2 as [|d w2].
    + cbn [app takewhile length]. rewrite Hy, Hs. cbn [length]. f_equal. lia.
    + cbn [blank forallb] in H2. apply andb_prop in H2 as [Hd Hw2].
      cbn [app]. rewrite (isspace_not_hyphen _ Hd).
      change (d :: w2 ++ c :: y) with ((d :: w2) ++ c :: y).
      rewrite takewhile_blank_stop; auto.
      * cbn [length]. f_equal. lia.
      * cbn [blank forallb]. now rewrite Hd.
  - rewrite takewhile_blank_stop by assumption.
    f_equal. cbn [length]. lia.
Qed.

(** In any text, a group of one or two hyphens with blanks around it that
    stands between two page-number characters becomes one en-dash; what is
    before and after it is normalized on its own. *)
Lemma sub_dash_group (x w1 h w2 : str) (c : codepoint) (y : str) :
  (x <> [] -> plain_char (last x 0%N) = true) ->
  blank w1 = true -> blank w2 = true -> h = u "-" \/ h = u "--" ->
  plain_char c = true ->
  sub_dash (x ++ w1 ++ h ++ w2 ++ c :: y)
  = sub_dash x ++ en_dash ++ sub_dash (c :: y).
Proof.
  intros Hx H1 H2 Hh Hc. unfold sub_dash.
  rewrite sub_dash_prefix by auto. f_equal.
  replace (w1 ++ h ++ w2 ++ c :: y) with ((w1 ++ h ++ w2) ++ c :: y)
    by (now rewrite <- !app_assoc).
  pose proof (match_dash_group w1 h w2 c y H1 H2 Hh Hc) as Hm.
  destruct (w1 ++ h ++ w2) as [|s0 sep] eqn:Esep.
  - exfalso. destruct Hh as [-> | ->]; destruct w1; discriminate.
  - cbn [app re_sub_scan]. cbn [app] in Hm. rewrite Hm. cbn [length].
    now rewrite re_sub_skip.
Qed.

Lemma plain_last (a : str) :
  plain a = true -> a <> [] -> plain_char (last a 0%N) = true.
Proof.
  intros Ha Hne. destruct (exists_last Hne) as (a' & z & ->).
  rewrite last_last. unfold plain in Ha. rewrite forallb_app in Ha.
  apply andb_prop in Ha as [_ Ha]. cbn in Ha. now destruct (plain_char z).
Qed.

Lemma sub_dash_plain (a : str) : plain a = true -> sub_dash a = a.
Proof.
  intros Ha. unfold sub_dash. rewrite <- (app_nil_r a) at 1.
  rewrite sub_dash_plain_prefix by assumption. cbn. apply app_nil_r.
Qed.

End PagesAnyText.

(** C6. In the pages fragment a group of one or two hyphens, with blanks
    around it or none, that stands between two characters of page numbers
    (neither blank nor hyphen) is rendered as a single en-dash, whatever
    else the pages text holds; two page numbers joined by such a group are
    rendered with one en-dash between them; "100--110" and "100-110" give
    the same fragment. *)
Theorem pages_range_normalized :
  (forall (entry : dict) (x w1 h w2 : str) (c : codepoint) (y : str),
      (x <> [] -> plain_char (last x 0%N) = true) ->
      blank w1 = true -> blank w2 = true -> h = u "-" \/ h = u "--" ->
      plain_char c = true ->
      dict_get entry (u "pages") = Some (x ++ w1 ++ h ++ w2 ++ c :: y) ->
      strip (x ++ w1 ++ h ++ w2 ++ c :: y) = x ++ w1 ++ h ++ w2 ++ c :: y ->
      _pages entry
      = u "pp.&nbsp;" ++ sub_dash x ++ en_dash ++ sub_dash (c :: y)) /\
  (forall (entry : dict) (a w1 h w2 b : str),
      plain a = true -> a <> [] -> plain b = true -> b <> [] ->
      blank w1 = true -> blank w2 = true -> h = u "-" \/ h = u "--" ->
      dict_get entry (u "pages") = Some (a ++ w1 ++ h ++ w2 ++ b) ->
      _pages entry = u "pp.&nbsp;" ++ a ++ en_dash ++ b) /\
  _pages [(u "pages", u "100--110")] = u "pp.&nbsp;100" ++ en_dash ++ u "110" /\
  _pages [(u "pages", u "100-110")] = u "pp.&nbsp;100" ++ en_dash ++ u "110" /\
  _pages [(u "pages", u "100 - 110")] = u "pp.&nbsp;100" ++ en_dash ++ u "110".
Proof.
  assert (General : forall (entry : dict) (x w1 h w2 : str) (c : codepoint)
                           (y : str),
      (x <> [] -> plain_char (last x 0%N) = true) ->
      blank w1 = true -> blank w2 = true -> h = u "-" \/ h = u "--" ->
      plain_char c = true ->
      dict_get entry (u "pages") = Some (x ++ w1 ++ h ++ w2 ++ c :: y) ->
      strip (x ++ w1 ++ h ++ w2 ++ c :: y) = x ++ w1 ++ h ++ w2 ++ c :: y ->
      _pages entry
      = u "pp.&nbsp;" ++ sub_dash x ++ en_dash ++ sub_dash (c :: y)).
  { intros entry x w1 h w2 c y Hx H1 H2 Hh Hc Hp Hs.
    unfold _pages, _get, get_or. rewrite Hp, Hs. cbv zeta.
    assert (Ht : truthy (x ++ w1 ++ h ++ w2 ++ c :: y) = true).
    { apply truthy_nonempty. intros E.
      apply (f_equal (@length codepoint)) in E.
      rewrite !length_app in E. cbn [length] in E. lia. }
    rewrite Ht. cbn iota. rewrite Ht. cbn [negb].
    rewrite sub_dash_group by assumption. reflexivity. }
  split; [exact General|]. split; [|repeat split; reflexivity].
  intros entry a w1 h w2 b Ha Hane Hb Hbne H1 H2 Hh Hp.
  destruct b as [|c y]; [congruence|].
  rewrite (General entry a w1 h w2 c y); auto.
  - now rewrite (sub_dash_plain a Ha), (sub_dash_plain (c :: y) Hb).
  - intros _. now apply plain_last.
  - cbn [plain forallb] in Hb. now apply andb_prop in Hb as [Hc _].
  - replace (a ++ w1 ++ h ++ w2 ++ c :: y) with (a ++ (w1 ++ h ++ w2) ++ c :: y)
      by (now rewrite <- !app_assoc).
    now apply strip_range.
Qed.

(** C4. [_format_name_list] splits at the separators "and" (any case, set
    off by blanks), turns each "Last, First" into "First Last" and leaves a
    name without comma as it is, and joins the names as a prose list:
    nothing for no name, the name for one, "A and B" for two,
    "A, B, ..., and Z" for three or more. *)
Theorem format_name_list_spec :
  (forall name_str,
      _format_name_list name_str
      = Ok (prose_join (map display_name (_parse_names name_str)))) /\
  (forall sep names,
      is_sep sep -> Forall (fun s => clean_name s = true) names ->
      _parse_names (join sep names) = names) /\
  is_sep (u " and ") /\
  (forall last first,
      no_comma last = true ->
      strip (last ++ u "," ++ first) = last ++ u "," ++ first ->
      display_name (last ++ u "," ++ first)
      = strip first ++ u " " ++ strip last) /\
  (forall name,
      no_comma (strip name) = true -> display_name name = strip name) /\
  (forall a b c rest,
      prose_join [] = [] /\ prose_join [a] = a /\
      prose_join [a; b] = a ++ u " and " ++ b /\
      prose_join (a :: b :: c :: rest)
      = join (u ", ") (removelast (a :: b :: c :: rest)) ++ u ", and "
        ++ last (c :: rest) []) /\
  _format_name_list (u "Bond, Francis and Baldwin, Timothy")
  = Ok (u "Francis Bond and Timothy Baldwin") /\
  _format_name_list (u "A, X and B, Y and C, Z") = Ok (u "X A, Y B, and Z C").
Proof.
  split; [exact _format_name_list_ok|].
  split; [exact parse_names_join|].
  split; [exact is_sep_and|].
  split.
  { intros last first Hl Hs. unfold display_name.
    now rewrite Hs, cut_at_comma_app. }
  split.
  { intros name Hn. unfold display_name. now rewrite cut_at_comma_none. }
  split; [|split; reflexivity].
  intros a b c rest. repeat split; reflexivity.
Qed.

(** ** Author filter *)

Section Filter.

Variable rt : Runtime.

Lemma _get_author_or_editor (e : dict) :
  _get e [u "author"; u "editor"] [] = author_or_editor e.
Proof.
  unfold _get, author_or_editor.
  destruct (truthy (strip (get_or e (u "author") []))); auto.
  destruct (strip (get_or e (u "editor") [])); reflexivity.
Qed.

Lemma visible_entries_incl (entries : list dict) (flt : option str) :
  incl (visible_entries rt entries flt) entries.
Proof.
  unfold visible_entries. destruct flt as [f|]; [|apply incl_refl].
  destruct (truthy f); [|apply incl_refl].
  intros e He. now apply filter_In in He.
Qed.

(** C5. What the filtering step retains is part of what is rendered
    without filter, entry by entry and hence key by key; and the author
    field of a retained entry, or its editor field when it has no author,
    contains the filter text, both taken in lower case. (A filter that is
    given but empty retains everything, as the empty text is part of any
    text.) *)
Theorem author_filter_sound (entries : list dict) (f : str) :
  let retained := visible_entries rt entries (Some f) in
  let shown := visible_entries rt entries None in
  incl retained shown /\
  incl (map citation_key retained) (map citation_key shown) /\
  forall e, In e retained ->
    _get e [u "author"; u "editor"] [] = author_or_editor e /\
    (f <> [] \/ str_lower rt [] = [] ->
     contains (str_lower rt f) (str_lower rt (author_or_editor e)) = true).
Proof.
  intros retained shown.
  assert (Hincl : incl retained shown) by apply visible_entries_incl.
  split; [exact Hincl|]. split; [now apply incl_map|].
  intros e He. split; [apply _get_author_or_editor|].
  intros Hf. unfold retained, visible_entries in He.
  destruct f as [|c f].
  - destruct Hf as [Hf|Hf]; [congruence|]. rewrite Hf.
    destruct (str_lower rt (author_or_editor e)); reflexivity.
  - cbn [truthy] in He. apply filter_In in He as [_ He].
    unfold _author_matches in He. now rewrite _get_author_or_editor in He.
Qed.

End Filter.

(** ** The renderers of one entry return *)

Section Totality.

Lemma venue_of_type_total (e : dict) (etype : str) :
  exists s, venue_of_type e etype = Ok s.
Proof.
  unfold venue_of_type.
  destruct (is_type etype ["inproceedings"%string]); [eexists; reflexivity|].
  destruct (is_type etype ["article"%string]); [eexists; reflexivity|].
  destruct (is_type etype ["book"%string]); [eexists; reflexivity|].
  destruct (is_type etype ["incollection"%string; "inbook"%string]).
  { destruct (truthy (_get e [u "editor"] [])); cbn [bind].
    - rewrite _format_name_list_ok. cbn [bind]. eexists; reflexivity.
    - eexists; reflexivity. }
  repeat match goal with
         | |- context [if is_type ?t ?l then _ else _] =>
             destruct (is_type t l); [eexists; reflexivity|]
         end.
  eexists; reflexivity.
Qed.

Lemma _venue_html_total (e : dict) : exists s, _venue_html e = Ok s.
Proof.
  unfold _venue_html.
  destruct (venue_of_type_total e (get_or e (u "_type") [])) as [v ->].
  cbn [bind]. eexists; reflexivity.
Qed.

Lemma _render_entry_total (e : dict) : exists s, _render_entry e = Ok s.
Proof.
  unfold _render_entry.
  destruct (_venue_html_total e) as [v ->].
  destruct (truthy (if truthy (_get e [u "author"] [])
                    then _get e [u "author"] []
                    else _get e [u "editor"] [])).
  - rewrite _format_name_list_ok. cbn [bind]. eexists; reflexivity.
  - cbn [bind]. eexists; reflexivity.
Qed.

Lemma mapM_total {A B : Type} (f : A -> Res B) (l : list A) :
  (forall a, In a l -> exists b, f a = Ok b) -> exists bs, mapM f l = Ok bs.
Proof.
  induction l as [|a r IH]; intros H; cbn [mapM].
  - eauto.
  - destruct (H a (or_introl eq_refl)) as [b ->].
    destruct IH as [bs ->]; [intros x Hx; apply H; now right|].
    cbn [bind]. eauto.
Qed.

Lemma mapM_inv {A B : Type} (f : A -> Res B) (l : list A) (bs : list B) :
  mapM f l = Ok bs -> Forall2 (fun a b => f a = Ok b) l bs.
Proof.
  revert bs. induction l as [|a r IH]; intros bs H; cbn [mapM] in H.
  - injection H as <-. constructor.
  - destruct (f a) as [b|] eqn:Ea; [|discriminate]. cbn [bind] in H.
    destruct (mapM f r) as [bs'|]; [|discriminate]. cbn [bind] in H.
    injection H as <-. constructor; auto.
Qed.

End Totality.

(** ** The stable descending sort *)

Section Sorting.

Context {A : Type}.

Lemma insert_desc_perm (x : Z * A) (l : list (Z * A)) :
  Permutation (insert_desc x l) (x :: l).
Proof.
  induction l as [|y r IH]; cbn [insert_desc]; auto.
  destruct (fst y <=? fst x)%Z; auto.
  rewrite IH. apply perm_swap.
Qed.

Lemma sort_desc_perm (l : list (Z * A)) : Permutation (sort_desc l) l.
Proof.
  induction l as [|x r IH]; cbn [sort_desc]; auto.
  now rewrite insert_desc_perm, IH.
Qed.

Lemma insert_desc_sorted (x : Z * A) (l : list (Z * A)) :
  StronglySorted desc l -> StronglySorted desc (insert_desc x l).
Proof.
  induction l as [|y r IH]; intros Hs; cbn [insert_desc].
  - repeat constructor.
  - apply StronglySorted_inv in Hs as [Hr Hy].
    destruct (fst y <=? fst x)%Z eqn:E.
    + apply Z.leb_le in E. constructor; [now constructor|].
      constructor; [exact E|].
      eapply Forall_impl; [|exact Hy]. unfold desc. intros z Hz. lia.
    + apply Z.leb_gt in E. constructor; [now apply IH|].
      rewrite insert_desc_perm. constructor; [unfold desc; lia | exact Hy].
Qed.

Lemma sort_desc_sorted (l : list (Z * A)) : StronglySorted desc (sort_desc l).
Proof.
  induction l as [|x r IH]; cbn [sort_desc]; [constructor|].
  now apply insert_desc_sorted.
Qed.

(** Stability: the elements with a given key stay in their order. *)
Lemma insert_desc_stable (k : Z) (x : Z * A) (l : list (Z * A)) :
  filter (with_key k) (insert_desc x l) = filter (with_key k) (x :: l).
Proof.
  induction l as [|y r IH]; cbn [insert_desc]; auto.
  destruct (fst y <=? fst x)%Z eqn:E; auto.
  apply Z.leb_gt in E. cbn [filter] in *. rewrite IH. unfold with_key.
  destruct (fst x =? k)%Z eqn:Ex; auto.
  destruct (fst y =? k)%Z eqn:Ey; auto.
  apply Z.eqb_eq in Ex, Ey. exfalso. lia.
Qed.

Lemma sort_desc_stable (k : Z) (l : list (Z * A)) :
  filter (with_key k) (sort_desc l) = filter (with_key k) l.
Proof.
  induction l as [|x r IH]; cbn [sort_desc]; auto.
  rewrite insert_desc_stable. cbn [filter]. now rewrite IH.
Qed.

Lemma sorted_after (l1 : list (Z * A)) (p : Z * A) (l2 : list (Z * A)) :
  StronglySorted desc (l1 ++ p :: l2) -> Forall (desc p) l2.
Proof.
  induction l1 as [|x l1 IH]; cbn [app]; intros H;
    apply StronglySorted_inv in H as [H1 H2]; auto.
Qed.

End Sorting.

(** ** Grouping by year *)

Section Grouping.

Lemma assoc_set_keys {V : Type} (d : list (str * V)) (k : str) (v : V) :
  map fst (assoc_set str_eqb d k v) =
  if existsb (str_eqb k) (map fst d) then map fst d else map fst d ++ [k].
Proof.
  induction d as [|[k' v'] r IH]; cbn [assoc_set map fst existsb app]; auto.
  destruct (str_eqb k' k) eqn:E; cbn [map fst].
  - apply str_eqb_eq in E. subst. now rewrite str_eqb_refl.
  - rewrite IH. destruct (str_eqb k k') eqn:E2.
    + apply str_eqb_eq in E2. apply str_eqb_neq in E. congruence.
    + cbn [orb]. now destruct (existsb (str_eqb k) (map fst r)).
Qed.

Lemma group_by_year_keys (visible : list dict) :
  map fst (group_by_year visible) = first_seen (map year_of visible).
Proof.
  unfold group_by_year, first_seen.
  change (@nil str) with (map fst (@nil (str * list dict))) at 2.
  generalize (@nil (str * list dict)).
  induction visible as [|e r IH]; intros acc; cbn [fold_left map]; auto.
  rewrite IH. f_equal. unfold bucket_append. apply assoc_set_keys.
Qed.

Lemma first_seen_In (l : list str) (y : str) : In y (first_seen l) <-> In y l.
Proof.
  unfold first_seen.
  assert (G : forall acc, In y (fold_left
              (fun acc y => if existsb (str_eqb y) acc then acc else acc ++ [y])
              l acc) <-> In y acc \/ In y l).
  { induction l as [|x r IH]; intros acc; cbn [fold_left In]; [tauto|].
    rewrite IH. destruct (existsb (str_eqb x) acc) eqn:E.
    - apply existsb_str_In in E. split; [tauto|].
      intros [H|[H|H]]; subst; auto.
    - rewrite in_app_iff. cbn [In]. tauto. }
  rewrite G. cbn [In]. tauto.
Qed.

Lemma first_seen_NoDup (l : list str) : NoDup (first_seen l).
Proof.
  unfold first_seen.
  assert (G : forall acc, NoDup acc -> NoDup (fold_left
              (fun acc y => if existsb (str_eqb y) acc then acc else acc ++ [y])
              l acc)).
  { induction l as [|x r IH]; intros acc Hacc; cbn [fold_left]; auto.
    apply IH. destruct (existsb (str_eqb x) acc) eqn:E; auto.
    apply NoDup_app; auto.
    - repeat constructor. cbn. tauto.
    - intros z Hz [<-|[]]. apply existsb_str_In in Hz. congruence. }
  apply G. constructor.
Qed.

End Grouping.

(** ** Sort keys of the years *)

Section YearKeys.

Variable rt : Runtime.

Lemma int_digits_nonneg (s : str) (acc k : Z) :
  (0 <= acc)%Z -> int_digits rt s acc = Ok k -> (0 <= k)%Z.
Proof.
  revert acc. induction s as [|c r IH]; intros acc Hacc H;
    cbn [int_digits] in H.
  - injection H as <-. exact Hacc.
  - destruct (decimal_cp rt c) as [d|]; [|discriminate].
    apply IH in H; [exact H | lia].
Qed.

Lemma year_key_nonneg (y : str) (k : Z) : year_key rt y = Ok k -> (0 <= k)%Z.
Proof.
  unfold year_key, py_int. destruct (isdigit rt y).
  - destruct (_ && _); [discriminate|].
    destruct y; [discriminate|]. apply int_digits_nonneg. lia.
  - intros H. injection H as <-. lia.
Qed.

Lemma year_key_undated : year_key rt (u "undated") = Ok 0%Z.
Proof. reflexivity. Qed.

Lemma keyed_years (keys : list str) (keyed : list (Z * str)) :
  mapM (fun y => k <- year_key rt y ;; Ok (k, y)) keys = Ok keyed ->
  map snd keyed = keys /\
  Forall (fun p => year_key rt (snd p) = Ok (fst p)) keyed.
Proof.
  intros H. apply mapM_inv in H.
  induction H as [|y p keys keyed Hy _ [IH1 IH2]]; [split; constructor|].
  destruct (year_key rt y) as [k|] eqn:Ek; [|discriminate].
  cbn [bind] in Hy. injection Hy as <-. cbn [map snd fst].
  split; [now rewrite IH1|]. constructor; auto.
Qed.

End YearKeys.

(** ** The assembled bibliography *)

Section Assembler.

Variable rt : Runtime.

(** C3 (as amended). In the output of [render_bibliography] the year
    sections stand in descending order of their sort key: the number a
    year of digits denotes, and 0 for every other year text and for the
    undated bucket. Sections with equal keys keep the order in which their
    years first appear among the entries. So every year with a positive
    number comes before the undated section; a year that is not a number,
    or is 0, comes before it only when it is seen before the first
    undated entry. *)
Theorem year_sections_order (entries : list dict) (flt : option str)
        (html : str) :
  render_bibliography rt entries flt = Ok html ->
  let visible := visible_entries rt entries flt in
  exists years nav sections keyed sorted,
    section_years rt entries flt = Ok years /\
    nav_of rt years = Ok nav /\
    Forall2 (fun y s => year_section (group_by_year visible) y = Ok s)
            years sections /\
    html = nav ++ nl ++ nl ++ u "<hr>" ++ nl ++ nl
           ++ join (nl ++ nl ++ nl) sections /\
    map snd keyed = first_seen (map year_of visible) /\
    Forall (fun p => year_key rt (snd p) = Ok (fst p)) keyed /\
    years = map snd sorted /\
    Permutation sorted keyed /\
    StronglySorted desc sorted /\
    (forall k, filter (with_key k) sorted = filter (with_key k) keyed) /\
    (forall pre post, years = pre ++ u "undated" :: post ->
                      forall y, In y post -> year_key rt y = Ok 0%Z).
Proof.
  intros H visible. unfold render_bibliography in H. fold visible in H.
  unfold section_years. fold visible.
  destruct (sorted_years rt (group_by_year visible)) as [years|] eqn:Ey;
    [|discriminate].
  cbn [bind] in H.
  destruct (nav_of rt years) as [nav|] eqn:En; [|discriminate].
  cbn [bind] in H.
  destruct (mapM (year_section (group_by_year visible)) years)
    as [sections|] eqn:Es; [|discriminate].
  cbn [bind] in H. injection H as <-.
  unfold sorted_years in Ey.
  destruct (mapM _ (map fst (group_by_year visible))) as [keyed|] eqn:Ek;
    [|discriminate].
  cbn [bind] in Ey. injection Ey as <-.
  destruct (keyed_years rt _ _ Ek) as [Hkeys Hkeyed].
  rewrite group_by_year_keys in Hkeys.
  exists (map snd (sort_desc keyed)), nav, sections, keyed, (sort_desc keyed).
  split; [reflexivity|]. split; [exact En|].
  split; [now apply mapM_inv|]. split; [reflexivity|].
  split; [exact Hkeys|]. split; [exact Hkeyed|]. split; [reflexivity|].
  split; [apply sort_desc_perm|]. split; [apply sort_desc_sorted|].
  split; [intros k; apply sort_desc_stable|].
  intros pre post E y Hy.
  apply map_eq_app in E as (s1 & s2 & Es12 & _ & E2).
  apply map_eq_cons in E2 as (p & s3 & -> & Hp & <-).
  apply in_map_iff in Hy as (q & <- & Hq).
  pose proof (sort_desc_sorted keyed) as Hs. rewrite Es12 in Hs.
  apply sorted_after in Hs.
  assert (Hall : Forall (fun p => year_key rt (snd p) = Ok (fst p))
                        (s1 ++ p :: s3)).
  { rewrite <- Es12. eapply Permutation_Forall; [|exact Hkeyed].
    symmetry. apply sort_desc_perm. }
  rewrite Forall_forall in Hall, Hs.
  assert (Hkp : year_key rt (snd p) = Ok (fst p))
    by (apply Hall, in_elt).
  assert (Hkq : year_key rt (snd q) = Ok (fst q))
    by (apply Hall; rewrite in_app_iff; right; now right).
  rewrite Hp, year_key_undated in Hkp. injection Hkp as Hkp.
  pose proof (Hs q Hq) as Hle. unfold desc in Hle.
  pose proof (year_key_nonneg rt _ _ Hkq) as Hge.
  rewrite Hkq. f_equal. lia.
Qed.

(** The assembler returns whenever the sort key of every year can be
    computed: the only operation of it that can raise is [int]. *)
Lemma group_by_decade_total (nav_years : list str) :
  (forall y, In y nav_years -> exists n, py_int rt y = Ok n) ->
  exists d, group_by_decade rt nav_years = Ok d.
Proof.
  unfold group_by_decade. generalize (@nil (Z * list str)).
  induction nav_years as [|y r IH]; intros acc H; cbn [fold_left].
  - eauto.
  - destruct (H y (or_introl eq_refl)) as [n Hn]. cbn [bind]. rewrite Hn.
    cbn [bind]. apply IH. intros z Hz. apply H. now right.
Qed.

Lemma render_bibliography_returns (entries : list dict) (flt : option str) :
  (forall e, In e (visible_entries rt entries flt) ->
             exists k, year_key rt (year_of e) = Ok k) ->
  exists html, render_bibliography rt entries flt = Ok html.
Proof.
  intros H. unfold render_bibliography.
  set (visible := visible_entries rt entries flt) in *.
  assert (Hkey : forall y, In y (map fst (group_by_year visible)) ->
                           exists k, year_key rt y = Ok k).
  { intros y Hy. rewrite group_by_year_keys in Hy.
    apply first_seen_In, in_map_iff in Hy as (e & <- & He). auto. }
  destruct (mapM_total (fun y => k <- year_key rt y ;; Ok (k, y))
                       (map fst (group_by_year visible))) as [keyed Ek].
  { intros y Hy. destruct (Hkey y Hy) as [k ->]. cbn [bind]. eauto. }
  unfold sorted_years. rewrite Ek. cbn [bind].
  destruct (keyed_years rt _ _ Ek) as [Hkeys _].
  assert (Hnav : exists nav, nav_of rt (map snd (sort_desc keyed)) = Ok nav).
  { unfold nav_of.
    destruct (group_by_decade_total
                (filter (isdigit rt) (map snd (sort_desc keyed)))) as [d ->].
    - intros y Hy. apply filter_In in Hy as [Hy Hd].
      assert (Hin : In y (map fst (group_by_year visible))).
      { rewrite <- Hkeys.
        eapply Permutation_in; [|exact Hy].
        apply Permutation_map, sort_desc_perm. }
      destruct (Hkey y Hin) as [k Hk]. unfold year_key in Hk.
      rewrite Hd in Hk. eauto.
    - cbn [bind]. eauto. }
  destruct Hnav as [nav ->]. cbn [bind].
  destruct (mapM_total (year_section (group_by_year visible))
                       (map snd (sort_desc keyed))) as [sections ->].
  { intros y _. unfold year_section.
    destruct (mapM_total _render_entry
                         (bucket str_eqb (group_by_year visible) y))
      as [rendered ->].
    - intros e _. apply _render_entry_total.
    - cbn [bind]. eauto. }
  cbn [bind]. eauto.
Qed.

(** C7, the failing input: a year that consists of the digit character
    U+00B2 passes [isdigit] and is refused by [int]; the assembler
    raises [ValueError]. *)
Theorem render_bibliography_raises :
  render_bibliography rt [superscript_year_entry] None = Raise ValueError.
Proof. reflexivity. Qed.

End Assembler.

(** The sections of the year-ordering example, and their headings. *)
Example year_sections_example :
  section_years latin1_runtime years_example None
  = Ok [u "2021"; u "2019"; u "2005"; u "undated"] /\
  map year_label [u "2021"; u "2019"; u "2005"; u "undated"]
  = [u "2021"; u "2019"; u "2005"; u "Undated"].
Proof. split; reflexivity. Qed.

(** C3, counterexample: the undated section is the first of three when the
    other years have key 0 and are seen later. *)
Lemma undated_section_not_last :
  section_years latin1_runtime undated_first_example None
  = Ok [u "undated"; u "in press"; u "0"].
Proof. reflexivity. Qed.

Lemma year_sections_order_witness :
  render_bibliography latin1_runtime years_example None = Ok years_example_html
  /\ exists years,
       section_years latin1_runtime years_example None = Ok years /\
       forall pre post, years = pre ++ u "undated" :: post ->
                        forall y, In y post ->
                                  year_key latin1_runtime y = Ok 0%Z.
Proof.
  assert (H : render_bibliography latin1_runtime years_example None
              = Ok years_example_html) by (vm_compute; reflexivity).
  split; [exact H|].
  destruct (year_sections_order latin1_runtime years_example None
                                years_example_html H)
    as (years & nav & sections & keyed & sorted & Hy & _ & _ & _ & _ & _ & _
        & _ & _ & _ & Hu).
  exists years. split; [exact Hy | exact Hu].
Defined.

(** ** Rendering depends on the entries as mappings only *)

Section Extensional.

Variable rt : Runtime.

Lemma get_or_ext (d d' : dict) (k x : str) :
  dict_equiv d d' -> get_or d k x = get_or d' k x.
Proof. intros H. unfold get_or. now rewrite (H k). Qed.

Lemma _get_ext (d d' : dict) :
  dict_equiv d d' -> forall keys x, _get d keys x = _get d' keys x.
Proof.
  intros H keys x. induction keys as [|k r IH]; cbn [_get]; auto.
  now rewrite (get_or_ext d d' k [] H), IH.
Qed.

Lemma _pages_ext (d d' : dict) : dict_equiv d d' -> _pages d = _pages d'.
Proof. intros H. unfold _pages. now rewrite (_get_ext d d' H). Qed.

Lemma venue_of_type_ext (d d' : dict) (etype : str) :
  dict_equiv d d' -> venue_of_type d etype = venue_of_type d' etype.
Proof.
  intros H. unfold venue_of_type.
  now rewrite !(_get_ext d d' H), (_pages_ext d d' H).
Qed.

Lemma _venue_html_ext (d d' : dict) :
  dict_equiv d d' -> _venue_html d = _venue_html d'.
Proof.
  intros H. unfold _venue_html.
  now rewrite !(_get_ext d d' H), (get_or_ext d d' _ _ H),
    (venue_of_type_ext d d' _ H).
Qed.

Lemma _render_entry_ext (d d' : dict) :
  dict_equiv d d' -> _render_entry d = _render_entry d'.
Proof.
  intros H. unfold _render_entry.
  now rewrite !(_get_ext d d' H), (get_or_ext d d' _ _ H),
    (_venue_html_ext d d' H).
Qed.

Lemma year_of_ext (d d' : dict) : dict_equiv d d' -> year_of d = year_of d'.
Proof. intros H. unfold year_of. apply (_get_ext d d' H). Qed.

Lemma filter_Forall2 {A : Type} (R : A -> A -> Prop) (p : A -> bool)
      (l l' : list A) :
  (forall a b, R a b -> p a = p b) ->
  Forall2 R l l' -> Forall2 R (filter p l) (filter p l').
Proof.
  intros Hp H. induction H as [|a b l l' Hab _ IH]; cbn [filter]; auto.
  rewrite (Hp a b Hab). destruct (p b); auto.
Qed.

Lemma visible_entries_ext (entries entries' : list dict) (flt : option str) :
  Forall2 dict_equiv entries entries' ->
  Forall2 dict_equiv (visible_entries rt entries flt)
          (visible_entries rt entries' flt).
Proof.
  intros H. unfold visible_entries. destruct flt as [f|]; auto.
  destruct (truthy f); auto.
  apply filter_Forall2; auto.
  intros a b Hab. now rewrite (_get_ext a b Hab).
Qed.

Lemma groups_equiv_get (g g' : list (str * list dict)) (k : str) :
  groups_equiv g g' ->
  match assoc_get str_eqb g k, assoc_get str_eqb g' k with
  | Some l, Some l' => Forall2 dict_equiv l l'
  | None, None => True
  | _, _ => False
  end.
Proof.
  induction 1 as [|[k1 l1] [k2 l2] g g' [Hk Hl] _ IH]; cbn [assoc_get]; auto.
  cbn [fst snd] in *. subst k2. destruct (str_eqb k1 k); auto.
Qed.

Lemma groups_equiv_set (g g' : list (str * list dict)) (k : str)
      (l l' : list dict) :
  groups_equiv g g' -> Forall2 dict_equiv l l' ->
  groups_equiv (assoc_set str_eqb g k l) (assoc_set str_eqb g' k l').
Proof.
  intros Hg Hl.
  induction Hg as [|[k1 l1] [k2 l2] g g' [Hk Hl12] Hg IH]; cbn [assoc_set].
  - repeat constructor; auto.
  - cbn [fst snd] in *. subst k2. destruct (str_eqb k1 k).
    + constructor; auto.
    + constructor; auto.
Qed.

Lemma group_by_year_ext (visible visible' : list dict) :
  Forall2 dict_equiv visible visible' ->
  groups_equiv (group_by_year visible) (group_by_year visible').
Proof.
  intros H. unfold group_by_year.
  assert (Hacc : groups_equiv [] []) by constructor.
  revert Hacc. generalize (@nil (str * list dict)) at 1 3.
  generalize (@nil (str * list dict)).
  induction H as [|e e' r r' He _ IH]; intros acc' acc Hacc;
    cbn [fold_left]; auto.
  apply IH. rewrite <- (year_of_ext e e' He). unfold bucket_append.
  apply groups_equiv_set; auto.
  pose proof (groups_equiv_get acc acc' (year_of e) Hacc) as Hget.
  destruct (assoc_get str_eqb acc (year_of e)),
           (assoc_get str_eqb acc' (year_of e)); try contradiction.
  - apply Forall2_app; auto.
  - auto.
Qed.

Lemma groups_equiv_keys (g g' : list (str * list dict)) :
  groups_equiv g g' -> map fst g = map fst g'.
Proof.
  induction 1 as [|p q g g' [Hk _] _ IH]; cbn [map]; auto.
  now rewrite Hk, IH.
Qed.

Lemma mapM_render_ext (l l' : list dict) :
  Forall2 dict_equiv l l' -> mapM _render_entry l = mapM _render_entry l'.
Proof.
  induction 1 as [|a b l l' Hab _ IH]; cbn [mapM]; auto.
  now rewrite (_render_entry_ext a b Hab), IH.
Qed.

Lemma year_section_ext (g g' : list (str * list dict)) (year : str) :
  groups_equiv g g' -> year_section g year = year_section g' year.
Proof.
  intros H. unfold year_section, bucket.
  pose proof (groups_equiv_get g g' year H) as Hget.
  destruct (assoc_get str_eqb g year), (assoc_get str_eqb g' year);
    try contradiction; auto.
  now rewrite (mapM_render_ext l l0 Hget).
Qed.

Lemma mapM_ext {A B : Type} (f g : A -> Res B) (l : list A) :
  (forall a, f a = g a) -> mapM f l = mapM g l.
Proof.
  intros H. induction l as [|a r IH]; cbn [mapM]; auto.
  now rewrite H, IH.
Qed.

(** The renderer reads the entries as mappings only: lists that agree
    entry by entry on the value under every field name give the same
    output, whatever the order in which the fields were stored. *)
Lemma render_bibliography_ext (entries entries' : list dict)
      (flt : option str) :
  Forall2 dict_equiv entries entries' ->
  render_bibliography rt entries flt = render_bibliography rt entries' flt.
Proof.
  intros H. unfold render_bibliography.
  pose proof (group_by_year_ext _ _ (visible_entries_ext _ _ flt H)) as Hg.
  unfold sorted_years. rewrite (groups_equiv_keys _ _ Hg).
  destruct (mapM _ (map fst (group_by_year (visible_entries rt entries' flt))))
    as [keyed|]; cbn [bind]; auto.
  destruct (nav_of rt (map snd (sort_desc keyed))) as [nav|]; cbn [bind]; auto.
  now rewrite (mapM_ext _ _ _ (fun y => year_section_ext _ _ y Hg)).
Qed.

End Extensional.

(** ** Rendering and the state of the interpreter *)

Section InterpreterState.

Variables rt1 rt2 : Runtime.
Hypothesis Htables : same_digit_tables rt1 rt2.













End InterpreterState.



(** ** The command line *)

(** C9, the failing input: on a library of one article by Bond the script
    writes the two files, each with the one entry rendered, and prints 0
    for both counts: it counts the text "<dt>", which the renderer never
    writes. *)
Theorem main_counts_no_entries (repr : list str -> str) :
  let run := main latin1_runtime (fun _ => Ok bond_library) repr
                  [u "bib2html.py"; u "main.bib"] in
  status run = Ok 0 /\
  (exists html_all html_bond,
      written run = [(u "bib_all.html", html_all);
                     (u "bib_bond.html", html_bond)] /\
      render_bibliography latin1_runtime
        (map (build_entry latin1_runtime) bond_library) None = Ok html_all /\
      render_bibliography latin1_runtime
        (map (build_entry latin1_runtime) bond_library) (Some (u "Bond"))
      = Ok html_bond /\
      count entry_marker html_all = 1 /\
      count entry_marker html_bond = 1) /\
  nth_error (stdout run) 1 = Some (u "Loaded 1 entries.") /\
  nth_error (stdout run) 3 = Some (u "  All entries  :    0 items") /\
  nth_error (stdout run) 4 = Some (u "  Bond entries :    0 items").
Proof.
  intros run. unfold run.
  split; [reflexivity|]. split.
  - eexists. eexists. split; [vm_compute; reflexivity|].
    repeat split; vm_compute; reflexivity.
  - repeat split; reflexivity.
Qed.

(** ** Further evaluations of the renderers *)

Example doi_link_bare :
  _doi_link (u "10.1000/x")
  = u "DOI: <a href=" ++ dq ++ u "https://doi.org/10.1000/x" ++ dq
    ++ u ">10.1000/x</a>".
Proof. reflexivity. Qed.

Example doi_link_resolver_url :
  _doi_link (u "https://dx.doi.org/10.1000/x")
  = u "DOI: <a href=" ++ dq ++ u "https://dx.doi.org/10.1000/x" ++ dq
    ++ u ">10.1000/x</a>".
Proof. reflexivity. Qed.

Example venue_thesis :
  _venue_html [(u "_type", u "phdthesis"); (u "school", u "NTU")]
  = Ok (u "PhD thesis, NTU").
Proof. reflexivity. Qed.

Example venue_anthology_link :
  _venue_html [(u "_type", u "inproceedings"); (u "booktitle", u "ACL");
               (u "url", u "https://aclanthology.org/P1")]
  = Ok (u "In <i>ACL</i>. <a href=" ++ dq ++ u "https://aclanthology.org/P1"
          ++ dq ++ u ">ACL Anthology</a>").
Proof. reflexivity. Qed.

Example venue_note_fallback :
  _venue_html [(u "_type", u "misc"); (u "note", u "To appear")]
  = Ok (u "To appear").
Proof. reflexivity. Qed.

Example render_entry_editor_only :
  _render_entry [(u "_type", u "proceedings"); (u "_key", u "p1");
                 (u "editor", u "Bond, Francis and Baldwin, Timothy");
                 (u "title", u "Proc"); (u "year", u "2020")]
  = Ok (u "<div class=" ++ dq ++ u "bib-entry" ++ dq ++ u " id=" ++ dq
        ++ u "p1" ++ dq ++ u ">" ++ nl
        ++ u "  <span class=" ++ dq ++ u "bib-meta" ++ dq
        ++ u ">Francis Bond and Timothy Baldwin (eds) (2020).</span>" ++ nl
        ++ u "  <span class=" ++ dq ++ u "bib-title" ++ dq
        ++ u ">Proc</span>." ++ nl
        ++ u "</div>").
Proof. reflexivity. Qed.

(* ================================================================== *)
(** * Further properties of the code *)

(** ** Stripping *)

Section Strip.

Lemma strip_fixed_ends (c : codepoint) (r : str) :
  isspace c = false -> isspace (last (c :: r) 0%N) = false ->
  strip (c :: r) = c :: r.
Proof.
  intros Hc Hl. unfold strip.
  assert (Hne : c :: r <> []) by discriminate.
  destruct (exists_last Hne) as (l' & z & E). rewrite E in *.
  rewrite last_last in Hl. rewrite rstrip_fixed by assumption.
  rewrite <- E. now apply lstrip_fixed.
Qed.

Lemma dropwhile_last (s : str) :
  dropwhile isspace s <> [] ->
  last (dropwhile isspace s) 0%N = last s 0%N.
Proof.
  intros H. rewrite <- (takewhile_dropwhile isspace s) at 2.
  destruct (dropwhile isspace s) as [|c r]; [congruence|].
  symmetry. apply last_app_cons.
Qed.

(** The result of [strip] is empty or begins and ends with a non-blank. *)
Lemma strip_ends (s : str) :
  strip s = [] \/
  exists c r, strip s = c :: r /\ isspace c = false /\
              isspace (last (c :: r) 0%N) = false.
Proof.
  unfold strip, lstrip, rstrip.
  destruct (dropwhile isspace (rev s)) as [|z x] eqn:Er.
  - left. reflexivity.
  - right. pose proof (dropwhile_head _ _ _ Er) as Hz.
    cbn [rev].
    assert (Hl : isspace (last (rev x ++ [z]) 0%N) = false)
      by now rewrite last_last.
    assert (Hne : rev x ++ [z] <> []) by (destruct (rev x); discriminate).
    pose proof (dropwhile_last_stop _ Hne Hl) as Hd.
    pose proof (dropwhile_last _ Hd) as Hlast.
    destruct (dropwhile isspace (rev x ++ [z])) as [|c r] eqn:Ed; [congruence|].
    exists c, r. split; [reflexivity|]. split.
    + eapply dropwhile_head; eauto.
    + now rewrite Hlast.
Qed.

Lemma strip_idem (s : str) : strip (strip s) = strip s.
Proof.
  destruct (strip_ends s) as [-> | (c & r & -> & Hc & Hl)]; [reflexivity|].
  now apply strip_fixed_ends.
Qed.

Lemma strip_blank (s : str) : blank s = true -> strip s = [].
Proof.
  intros H. unfold strip, lstrip, rstrip.
  assert (Hr : dropwhile isspace (rev s) = []).
  { assert (G : forall t : str, blank t = true -> dropwhile isspace t = []).
    { induction t as [|c t IH]; cbn; auto. intros Ht.
      apply andb_prop in Ht as [-> Ht]. auto. }
    apply G. unfold blank in *. rewrite forallb_forall in *.
    intros x Hx. apply H. now apply in_rev. }
  now rewrite Hr.
Qed.

Lemma trimmed_last (s : str) :
  s <> [] -> strip s = s -> isspace (last s 0%N) = false.
Proof.
  intros Hne Hs. destruct (strip_ends s) as [E | (c & r & E & _ & Hl)];
    rewrite Hs in E; [congruence | now rewrite E].
Qed.

Lemma trimmed_head (c : codepoint) (r : str) :
  strip (c :: r) = c :: r -> isspace c = false.
Proof.
  intros Hs. destruct (strip_ends (c :: r)) as [E | (d & x & E & Hd & _)];
    rewrite Hs in E; [discriminate | now injection E as -> ->].
Qed.

End Strip.

(** ** Field access *)

Section FieldAccess.

Variable e : dict.

Lemma _get_trimmed (keys : list str) (default : str) :
  strip default = default ->
  strip (_get e keys default) = _get e keys default.
Proof.
  intros Hd. induction keys as [|k r IH]; cbn [_get]; auto.
  destruct (truthy (strip (get_or e k []))); auto using strip_idem.
Qed.

(** X1. [_get] gives the first of the keys that has a non-blank value,
    with the blanks around it removed; when every key is missing, empty or
    blank it gives the default; what it gives is never padded with blanks
    (the default being unpadded) and, unless it is the default, never
    empty. *)
Theorem get_first_nonblank (keys : list str) (default : str) :
  ((forall k, In k keys -> strip (get_or e k []) = []) ->
   _get e keys default = default) /\
  (forall pre k post,
      keys = pre ++ k :: post ->
      (forall k', In k' pre -> strip (get_or e k' []) = []) ->
      strip (get_or e k []) <> [] ->
      _get e keys default = strip (get_or e k [])) /\
  (_get e keys default = default \/
   exists k, In k keys /\ _get e keys default = strip (get_or e k []) /\
             _get e keys default <> []) /\
  (strip default = default ->
   strip (_get e keys default) = _get e keys default).
Proof.
  repeat split.
  - induction keys as [|k r IH]; intros H; cbn [_get]; auto.
    rewrite (H k (or_introl eq_refl)). cbn [truthy].
    apply IH. intros k' Hk'. apply H. now right.
  - intros pre k post -> Hpre Hk.
    induction pre as [|p pre IH]; cbn [app _get].
    + apply truthy_nonempty in Hk. now rewrite Hk.
    + rewrite (Hpre p (or_introl eq_refl)). cbn [truthy].
      apply IH. intros k' Hk'. apply Hpre. now right.
  - induction keys as [|k r IH]; cbn [_get]; [now left|].
    destruct (truthy (strip (get_or e k []))) eqn:Et.
    + right. exists k. split; [now left|]. split; [reflexivity|].
      now apply truthy_nonempty.
    + destruct IH as [IH | (k' & Hin & Hk' & Hne)]; [now left|].
      right. exists k'. split; [now right | auto].
  - apply _get_trimmed.
Qed.

End FieldAccess.

(** ** The pages fragment *)

Section PagesInvariant.

Lemma hyphen_not_space (c : codepoint) : is_hyphen c = true -> isspace c = false.
Proof.
  intros H. destruct (isspace c) eqn:E; auto.
  apply isspace_not_hyphen in E. congruence.
Qed.

(** At a hyphen the pattern always matches, at least the hyphen itself. *)
Lemma match_dash_at_hyphen (c : codepoint) (r : str) :
  is_hyphen c = true -> exists n, match_dash (c :: r) = Some (S n).
Proof.
  intros H. unfold match_dash. cbn [takewhile dropwhile].
  rewrite (hyphen_not_space c H), H.
  destruct r as [|h2 r2]; [eexists; reflexivity|].
  destruct (is_hyphen h2); eexists; reflexivity.
Qed.

Lemma re_sub_scan_no_hyphen (s : str) :
  forall skip, no_hyphen (re_sub_scan match_dash en_dash s skip) = true.
Proof.
  unfold no_hyphen.
  induction s as [|c r IH]; intros skip; cbn [re_sub_scan]; auto.
  destruct skip as [|k]; auto.
  destruct (match_dash (c :: r)) as [[|n]|] eqn:E.
  - destruct (is_hyphen c) eqn:Ec.
    + destruct (match_dash_at_hyphen c r Ec) as [n Hn]. congruence.
    + cbn [forallb]. now rewrite Ec, IH.
  - cbn [en_dash app forallb]. now rewrite IH.
  - destruct (is_hyphen c) eqn:Ec.
    + destruct (match_dash_at_hyphen c r Ec) as [n Hn]. congruence.
    + cbn [forallb]. now rewrite Ec, IH.
Qed.

Lemma match_dash_no_hyphen (s : str) : no_hyphen s = true -> match_dash s = None.
Proof.
  intros H. unfold match_dash.
  assert (G : match dropwhile isspace s with
              | h1 :: _ => is_hyphen h1 = false
              | [] => True
              end).
  { unfold no_hyphen in H. induction s as [|c r IH]; cbn [dropwhile]; auto.
    cbn [forallb] in H. apply andb_prop in H as [Hc Hr].
    destruct (isspace c); [now apply IH | now apply negb_true_iff]. }
  destruct (dropwhile isspace s) as [|h1 r1]; auto. now rewrite G.
Qed.

Lemma sub_dash_no_hyphen_fixed (s : str) : no_hyphen s = true -> sub_dash s = s.
Proof.
  unfold sub_dash. induction s as [|c r IH]; intros H; auto.
  cbn [re_sub_scan]. rewrite (match_dash_no_hyphen _ H).
  unfold no_hyphen in H. cbn [forallb] in H. apply andb_prop in H as [_ Hr].
  now rewrite IH.
Qed.

End PagesInvariant.

(** X2. The page normalization removes every hyphen, so normalizing twice
    is normalizing once; and the pages fragment of an entry never holds a
    hyphen, and is empty exactly when the entry has no pages field or a
    blank one. *)
Theorem pages_fragment_invariant (entry : dict) (p : str) :
  no_hyphen (sub_dash p) = true /\
  sub_dash (sub_dash p) = sub_dash p /\
  no_hyphen (_pages entry) = true /\
  (_pages entry = [] <-> strip (get_or entry (u "pages") []) = []).
Proof.
  assert (H1 : forall q, no_hyphen (sub_dash q) = true)
    by (intros q; apply re_sub_scan_no_hyphen).
  split; [apply H1|]. split; [apply sub_dash_no_hyphen_fixed, H1|].
  unfold _pages, _get.
  destruct (strip (get_or entry (u "pages") [])) as [|c r] eqn:E.
  - split; [reflexivity | tauto].
  - cbn [truthy negb]. split.
    + unfold no_hyphen. rewrite forallb_app. apply andb_true_intro.
      split; [reflexivity | apply H1].
    + split; discriminate.
Qed.

(** ** DOI links *)

Section Doi.

Lemma strip_prefixed (p d : str) (c : codepoint) (r : str) :
  p = c :: r -> isspace c = false -> d <> [] -> strip d = d ->
  strip (p ++ d) = p ++ d.
Proof.
  intros -> Hc Hne Hd. cbn [app]. apply strip_fixed_ends; auto.
  destruct d as [|x d]; [congruence|].
  change (c :: r ++ x :: d) with ((c :: r) ++ x :: d).
  rewrite last_app_cons. now apply trimmed_last.
Qed.

Lemma startswith_app (p x : str) : startswith p (p ++ x) = true.
Proof.
  induction p as [|c p IH]; cbn [app startswith]; auto.
  now rewrite N.eqb_refl, IH.
Qed.

Lemma strip_prefix_app (p x : str) : strip_prefix p (p ++ x) = Some x.
Proof.
  induction p as [|c p IH]; cbn [app strip_prefix]; auto.
  now rewrite N.eqb_refl, IH.
Qed.

Lemma strip_doi_resolver_prefixed (p d : str) :
  In p resolver_prefixes -> strip_doi_resolver (p ++ d) = d.
Proof.
  intros H. cbn in H.
  destruct H as [<-|[<-|[<-|[<-|[]]]]]; reflexivity.
Qed.

End Doi.

(** X3. A DOI given as a resolver address (http or https, doi.org or
    dx.doi.org) is shown as the bare DOI and linked to the address as
    given; given as [https://doi.org/] followed by the DOI it yields the
    very link the bare DOI yields. *)
Theorem doi_link_resolver (d : str) :
  d <> [] -> strip d = d -> startswith (u "http") d = false ->
  (forall p, In p resolver_prefixes ->
     _doi_link (p ++ d)
     = u "DOI: <a href=" ++ dq ++ p ++ d ++ dq ++ u ">" ++ d ++ u "</a>") /\
  _doi_link (u "https://doi.org/" ++ d) = _doi_link d.
Proof.
  intros Hne Hs Hh.
  assert (G : forall p, In p resolver_prefixes ->
     _doi_link (p ++ d)
     = u "DOI: <a href=" ++ dq ++ p ++ d ++ dq ++ u ">" ++ d ++ u "</a>").
  { intros p Hp. unfold _doi_link.
    assert (Hp' : exists r, p = u "http" ++ r).
    { cbn in Hp. destruct Hp as [<-|[<-|[<-|[<-|[]]]]];
        eexists; reflexivity. }
    destruct Hp' as [r Er].
    assert (Hst : strip (p ++ d) = p ++ d).
    { rewrite Er. eapply strip_prefixed; eauto; reflexivity. }
    rewrite Hst.
    assert (Ht : truthy (p ++ d) = true).
    { rewrite Er. reflexivity. }
    rewrite Ht. cbn [negb].
    assert (Hw : startswith (u "http") (p ++ d) = true).
    { rewrite Er, <- app_assoc. apply startswith_app. }
    rewrite Hw, (strip_doi_resolver_prefixed p d Hp).
    now rewrite <- !app_assoc. }
  split; [exact G|].
  rewrite (G (u "https://doi.org/") ltac:(now left)).
  unfold _doi_link.
  destruct d as [|c d']; [congruence|]. cbn [truthy negb].
  now rewrite Hs, Hh, <- !app_assoc.
Qed.

(** The DOI of the example, with and without the resolver address. *)
Lemma doi_link_resolver_witness :
  _doi_link (u "https://doi.org/" ++ u "10.1000/x") = _doi_link (u "10.1000/x").
Proof.
  apply (doi_link_resolver (u "10.1000/x")); [discriminate | reflexivity..].
Defined.

(** ** Venue and entry rendering *)

(** X4. The venue renderer and the entry renderer return a text for every
    entry, whatever fields it has or lacks (the list indexing of the name
    formatter is always in range), and the venue has no blank at either
    end. *)
Theorem entry_renderers_return :
  (forall e, exists s, _venue_html e = Ok s /\ strip s = s) /\
  (forall e, exists s, _render_entry e = Ok s).
Proof.
  split; [|exact _render_entry_total].
  intros e. unfold _venue_html.
  destruct (venue_of_type_total e (get_or e (u "_type") [])) as [v ->].
  cbn [bind]. eexists. split; [reflexivity | apply strip_idem].
Qed.

Section Fallback.

Lemma is_type_sub (etype : str) (small big : list string) :
  incl small big -> is_type etype big = false -> is_type etype small = false.
Proof.
  unfold is_type. intros Hi Hb.
  destruct (existsb _ small) eqn:E; auto.
  apply existsb_exists in E as (n & Hn & En).
  assert (existsb (fun n => str_eqb etype (u n)) big = true)
    by (apply existsb_exists; exists n; auto).
  congruence.
Qed.

Lemma contains_refl (s : str) : contains s s = true.
Proof.
  assert (H : startswith s s = true).
  { rewrite <- (app_nil_r s) at 2. apply startswith_app. }
  destruct s as [|c r]; [reflexivity|].
  cbn [contains]. now rewrite H.
Qed.

End Fallback.

(** X5. For an entry whose type has no venue rule of its own (misc,
    unpublished, a missing type, ...) and which has neither url nor doi,
    the venue is the note, once, or empty when there is no note. *)
Theorem venue_unknown_type (e : dict) :
  is_type (get_or e (u "_type") []) known_types = false ->
  _get e [u "url"] [] = [] -> _get e [u "doi"] [] = [] ->
  _venue_html e = Ok (_get e [u "note"] []).
Proof.
  intros Ht Hu Hd. unfold _venue_html, venue_of_type.
  set (etype := get_or e (u "_type") []) in *.
  assert (Hsub : forall small, incl small known_types ->
                               is_type etype small = false)
    by (intros small Hi; now apply (is_type_sub etype small known_types)).
  rewrite !Hsub by (unfold known_types; intros x Hx; cbn in Hx |- *; tauto).
  cbn [bind]. rewrite Hu, Hd. unfold venue_links, part. cbn [truthy app].
  rewrite contains_refl. cbn [negb]. rewrite andb_false_r.
  f_equal. now apply _get_trimmed.
Qed.

Lemma venue_unknown_type_witness :
  _venue_html [(u "_type", u "misc"); (u "note", u "To appear")]
  = Ok (_get [(u "_type", u "misc"); (u "note", u "To appear")] [u "note"] []).
Proof.
  apply (venue_unknown_type [(u "_type", u "misc"); (u "note", u "To appear")]);
    reflexivity.
Defined.

(** ** Names *)

Section NamesInvariant.

Lemma split_blank (s : str) :
  blank s = true -> forall cur, re_split_scan match_and s 0 cur = [cur ++ s].
Proof.
  induction s as [|c r IH]; intros H cur; cbn [re_split_scan].
  - now rewrite app_nil_r.
  - assert (Hm : match_and (c :: r) = None).
    { unfold match_and.
      assert (G : forall t : str, blank t = true -> dropwhile isspace t = []).
      { induction t as [|x t IHt]; cbn; auto. intros Hx.
        apply andb_prop in Hx as [-> Hx]. auto. }
      rewrite (G _ H). now destruct (takewhile isspace (c :: r)). }
    rewrite Hm. cbn [blank forallb] in H. apply andb_prop in H as [_ Hr].
    rewrite IH by assumption. now rewrite <- app_assoc.
Qed.

End NamesInvariant.

(** X6. Every name [_parse_names] returns is non-empty and has no blank at
    either end; a name string that is empty or blank has no names and is
    formatted as the empty text. *)
Theorem parse_names_trimmed (name_str : str) :
  Forall (fun n => n <> [] /\ strip n = n) (_parse_names name_str) /\
  (blank name_str = true ->
   _parse_names name_str = [] /\ _format_name_list name_str = Ok []).
Proof.
  split.
  - unfold _parse_names. apply Forall_forall. intros n Hn.
    apply filter_In in Hn as [Hn Ht].
    apply in_map_iff in Hn as (x & <- & _).
    split; [now apply truthy_nonempty | apply strip_idem].
  - intros Hb.
    assert (Hp : _parse_names name_str = []).
    { unfold _parse_names, split_and. rewrite split_blank by assumption.
      cbn [app map filter]. now rewrite strip_blank. }
    split; [exact Hp|]. now rewrite _format_name_list_ok, Hp.
Qed.

(** ** Filtering and grouping *)

Section FilterCompose.

Variable rt : Runtime.

Lemma filter_idem {A : Type} (p : A -> bool) (l : list A) :
  filter p (filter p l) = filter p l.
Proof.
  induction l as [|a r IH]; cbn [filter]; auto.
  destruct (p a) eqn:E; cbn [filter]; [now rewrite E, IH | exact IH].
Qed.

Lemma filter_comm {A : Type} (p q : A -> bool) (l : list A) :
  filter p (filter q l) = filter q (filter p l).
Proof.
  induction l as [|a r IH]; cbn [filter]; auto.
  destruct (p a) eqn:Ep, (q a) eqn:Eq; cbn [filter];
    rewrite ?Ep, ?Eq, IH; reflexivity.
Qed.

(** X7. Filtering by author composes: filtering what was filtered by the
    same text changes nothing, two filters can be applied in either order,
    and without filter (none, or the empty text) the entries are passed on
    as they are. *)
Theorem visible_entries_compose (entries : list dict) (f g : option str) :
  visible_entries rt (visible_entries rt entries f) f
  = visible_entries rt entries f /\
  visible_entries rt (visible_entries rt entries f) g
  = visible_entries rt (visible_entries rt entries g) f /\
  visible_entries rt entries None = entries /\
  visible_entries rt entries (Some []) = entries.
Proof.
  repeat split.
  - unfold visible_entries. destruct f as [f|]; auto.
    destruct (truthy f); auto using filter_idem.
  - unfold visible_entries. destruct f as [f|], g as [g|]; auto;
      destruct (truthy f); destruct (truthy g); auto using filter_comm.
Qed.

End FilterCompose.

Section Buckets.

Lemma bucket_append_get (d : list (str * list dict)) (k y : str) (x : dict) :
  bucket str_eqb (bucket_append str_eqb d k x) y
  = if str_eqb k y then bucket str_eqb d y ++ [x] else bucket str_eqb d y.
Proof.
  unfold bucket, bucket_append.
  destruct (str_eqb k y) eqn:E.
  - apply str_eqb_eq in E. subst y. rewrite assoc_get_set_same.
    now destruct (assoc_get str_eqb d k).
  - apply str_eqb_neq in E. now rewrite assoc_get_set_other.
Qed.

End Buckets.

Lemma bucket_filter (visible : list dict) (y : str) :
  bucket str_eqb (group_by_year visible) y
  = filter (fun e => str_eqb (year_of e) y) visible.
Proof.
  unfold group_by_year.
  assert (G : forall acc,
             bucket str_eqb
               (fold_left (fun by_year e =>
                             bucket_append str_eqb by_year (year_of e) e)
                          visible acc) y
             = bucket str_eqb acc y
               ++ filter (fun e => str_eqb (year_of e) y) visible).
  { induction visible as [|e r IH]; intros acc; cbn [fold_left filter].
    - now rewrite app_nil_r.
    - rewrite IH, bucket_append_get.
      destruct (str_eqb (year_of e) y); [now rewrite <- app_assoc | auto]. }
  now rewrite G.
Qed.

(** X8. Grouping by year is a stable partition: the bucket of a year holds
    exactly the entries with that year, in the order in which they come in
    the list, so an entry is in the bucket of its own year and in no other;
    a year no entry has gets the empty bucket. *)
Theorem group_by_year_buckets (visible : list dict) (y : str) :
  bucket str_eqb (group_by_year visible) y
  = filter (fun e => str_eqb (year_of e) y) visible /\
  (forall e, In e (bucket str_eqb (group_by_year visible) y) <->
             In e visible /\ year_of e = y) /\
  ((forall e, In e visible -> year_of e <> y) ->
   bucket str_eqb (group_by_year visible) y = []).
Proof.
  split; [apply bucket_filter|]. split.
  - intros e. rewrite bucket_filter, filter_In.
    split; intros [H1 H2]; split; auto;
      [now apply str_eqb_eq | now apply str_eqb_eq].
  - intros H. rewrite bucket_filter.
    induction visible as [|e r IH]; cbn [filter]; auto.
    destruct (str_eqb (year_of e) y) eqn:E.
    + apply str_eqb_eq in E. exfalso. apply (H e); [now left | exact E].
    + apply IH. intros e' He'. apply H. now right.
Qed.

(** ** Year sections *)

Section Sections.

Variable rt : Runtime.

Lemma int_digits_raise (s : str) (acc : Z) (x : exn) :
  int_digits rt s acc = Raise x -> x = ValueError.
Proof.
  revert acc. induction s as [|c r IH]; intros acc H; cbn [int_digits] in H.
  - discriminate.
  - destruct (decimal_cp rt c); [eauto | congruence].
Qed.

Lemma year_key_raise (y : str) (x : exn) :
  year_key rt y = Raise x -> x = ValueError.
Proof.
  unfold year_key, py_int. destruct (isdigit rt y); [|discriminate].
  destruct (_ && _); [congruence|].
  destruct y; [congruence | apply int_digits_raise].
Qed.

Lemma mapM_raise {A B : Type} (f : A -> Res B) (l : list A) (x : exn) :
  mapM f l = Raise x -> exists a, In a l /\ f a = Raise x.
Proof.
  induction l as [|a r IH]; cbn [mapM]; [discriminate|].
  destruct (f a) as [b|x'] eqn:Ea; cbn [bind].
  - destruct (mapM f r) as [bs|x'']; cbn [bind]; [discriminate|].
    intros H. injection H as ->. destruct (IH eq_refl) as (a' & Hin & Ha').
    exists a'. split; [now right | exact Ha'].
  - intros H. injection H as ->. exists a. split; [now left | exact Ea].
Qed.

Lemma sorted_years_keys (by_year : list (str * list dict)) (years : list str) :
  sorted_years rt by_year = Ok years ->
  Permutation years (map fst by_year) /\
  forall y, In y (map fst by_year) -> exists k, year_key rt y = Ok k.
Proof.
  unfold sorted_years.
  destruct (mapM _ (map fst by_year)) as [keyed|] eqn:Ek; [|discriminate].
  cbn [bind]. intros H. injection H as <-.
  destruct (keyed_years rt _ _ Ek) as [Hk Hall]. split.
  - rewrite <- Hk. apply Permutation_map, sort_desc_perm.
  - intros y Hy. rewrite <- Hk in Hy.
    apply in_map_iff in Hy as (p & <- & Hp).
    rewrite Forall_forall in Hall. eauto.
Qed.

(** X9. The year sections of the output are the years of the visible
    entries, each once: no section is empty, no entry is left out, and an
    entry without year is under "undated". *)
Theorem section_years_exact (entries : list dict) (flt : option str)
        (years : list str) :
  section_years rt entries flt = Ok years ->
  NoDup years /\
  (forall y, In y years <->
             exists e, In e (visible_entries rt entries flt) /\ year_of e = y) /\
  (forall y, In y years ->
             bucket str_eqb (group_by_year (visible_entries rt entries flt)) y
             <> []) /\
  (forall e, In e (visible_entries rt entries flt) ->
             In (_get e [u "year"] (u "undated")) years).
Proof.
  unfold section_years. intros H.
  destruct (sorted_years_keys _ _ H) as [Hperm _].
  rewrite group_by_year_keys in Hperm.
  assert (Hin : forall y, In y years <->
             exists e, In e (visible_entries rt entries flt) /\ year_of e = y).
  { intros y. split.
    - intros Hy. apply (Permutation_in _ Hperm) in Hy.
      apply first_seen_In, in_map_iff in Hy as (e & <- & He). eauto.
    - intros (e & He & <-). apply (Permutation_in _ (Permutation_sym Hperm)).
      apply first_seen_In, in_map_iff. eauto. }
  split.
  { eapply Permutation_NoDup; [apply Permutation_sym, Hperm|].
    apply first_seen_NoDup. }
  split; [exact Hin|]. split.
  - intros y Hy. apply Hin in Hy as (e & He & <-).
    rewrite bucket_filter. intros E.
    assert (Hf : In e (filter (fun e' => str_eqb (year_of e') (year_of e))
                              (visible_entries rt entries flt))).
    { apply filter_In. split; [exact He | apply str_eqb_refl]. }
    rewrite E in Hf. destruct Hf.
  - intros e He. apply Hin. exists e. split; [exact He | reflexivity].
Qed.

(** X10. [render_bibliography] returns exactly when the sort key of the
    year of every visible entry can be computed; when it raises, it raises
    [ValueError], from [int] on a year of digit characters. *)
Theorem render_bibliography_raises_iff (entries : list dict)
        (flt : option str) :
  ((exists html, render_bibliography rt entries flt = Ok html) <->
   (forall e, In e (visible_entries rt entries flt) ->
              exists k, year_key rt (year_of e) = Ok k)) /\
  (forall x, render_bibliography rt entries flt = Raise x ->
             x = ValueError /\
             exists e, In e (visible_entries rt entries flt) /\
                       isdigit rt (year_of e) = true /\
                       py_int rt (year_of e) = Raise ValueError).
Proof.
  assert (Hfwd : forall years,
             sorted_years rt (group_by_year (visible_entries rt entries flt))
             = Ok years ->
             forall e, In e (visible_entries rt entries flt) ->
                       exists k, year_key rt (year_of e) = Ok k).
  { intros years Hy e He.
    destruct (sorted_years_keys _ _ Hy) as [_ Hk]. apply Hk.
    rewrite group_by_year_keys. apply first_seen_In, in_map_iff. eauto. }
  split; [split|].
  - intros [html H]. unfold render_bibliography in H.
    destruct (sorted_years rt (group_by_year (visible_entries rt entries flt)))
      as [years|] eqn:Ey; [|discriminate].
    now apply (Hfwd years).
  - apply render_bibliography_returns.
  - intros x H.
    destruct (sorted_years rt (group_by_year (visible_entries rt entries flt)))
      as [years|x'] eqn:Ey.
    + destruct (render_bibliography_returns rt entries flt (Hfwd years eq_refl))
        as [html Hh]. congruence.
    + assert (x' = x).
      { unfold render_bibliography in H. rewrite Ey in H. cbn [bind] in H.
        congruence. }
      subst x'. unfold sorted_years in Ey.
      destruct (mapM _ (map fst (group_by_year _))) as [keyed|x'] eqn:Ek;
        cbn [bind] in Ey; [discriminate|]. injection Ey as ->.
      apply mapM_raise in Ek as (y & Hy & Hr).
      destruct (year_key rt y) as [k|x'] eqn:Eyk; cbn [bind] in Hr;
        [discriminate|]. injection Hr as ->.
      pose proof (year_key_raise _ _ Eyk) as ->. split; [reflexivity|].
      rewrite group_by_year_keys in Hy.
      apply first_seen_In, in_map_iff in Hy as (e & <- & He).
      exists e. split; [exact He|].
      unfold year_key in Eyk. destruct (isdigit rt (year_of e));
        [auto | discriminate].
Qed.

Lemma decimal_digits_value (s : str) (acc : Z) :
  ascii_digits s = true -> exists k, int_digits rt s acc = Ok k.
Proof.
  revert acc. unfold ascii_digits.
  induction s as [|c r IH]; intros acc H; cbn [int_digits]; [eauto|].
  cbn [forallb] in H. apply andb_prop in H as [Hc Hr].
  assert (Hlt : (c <? 256)%N = true).
  { apply andb_prop in Hc as [_ Hc]. apply N.leb_le in Hc.
    apply N.ltb_lt. lia. }
  unfold decimal_cp. rewrite Hlt, Hc. now apply IH.
Qed.

(** X11. A year written with ASCII digits, up to 640 of them, always has a
    sort key, which is not negative; a year that is no text of digit
    characters has key 0. So the assembler returns for every collection
    whose years are of these two kinds. *)
Theorem plain_years_render (entries : list dict) (flt : option str) :
  (forall y, ascii_digits y = true -> y <> [] -> length y <= 640 ->
             exists k, year_key rt y = Ok k /\ (0 <= k)%Z) /\
  (forall y, isdigit rt y = false -> year_key rt y = Ok 0%Z) /\
  ((forall e, In e entries ->
              isdigit rt (year_of e) = false \/
              (ascii_digits (year_of e) = true /\ length (year_of e) <= 640)) ->
   exists html, render_bibliography rt entries flt = Ok html).
Proof.
  assert (H1 : forall y, ascii_digits y = true -> y <> [] -> length y <= 640 ->
             exists k, year_key rt y = Ok k /\ (0 <= k)%Z).
  { intros y Hd Hne Hlen.
    assert (exists k, year_key rt y = Ok k) as [k Hk].
    { destruct (isdigit rt y) eqn:Ei; unfold year_key; rewrite Ei; [|eauto].
      unfold py_int.
      assert ((640 <? length y) = false) as -> by (apply Nat.ltb_ge; lia).
      cbn [andb]. destruct y; [congruence|].
      now apply decimal_digits_value. }
    exists k. split; [exact Hk | eapply year_key_nonneg; eauto]. }
  assert (H2 : forall y, isdigit rt y = false -> year_key rt y = Ok 0%Z).
  { intros y Hy. unfold year_key. now rewrite Hy. }
  split; [exact H1|]. split; [exact H2|].
  intros H. apply render_bibliography_returns. intros e He.
  apply visible_entries_incl in He.
  destruct (H e He) as [Hn | [Hd Hl]]; [rewrite (H2 _ Hn); eauto|].
  destruct (list_eq_dec N.eq_dec (year_of e) []) as [E|E].
  - rewrite E. exists 0%Z. reflexivity.
  - destruct (H1 (year_of e) Hd E Hl) as (k & Hk & _). eauto.
Qed.

(** X12. When no entry is visible (an empty collection, or a filter that
    matches no entry) the output is the empty navigation block and the
    separator, with no section after it. *)
Theorem render_bibliography_nothing_visible (entries : list dict)
        (flt : option str) :
  visible_entries rt entries flt = [] ->
  render_bibliography rt entries flt
  = Ok (u "<p class=" ++ dq ++ u "bib-nav" ++ dq ++ u ">" ++ nl ++ u "  "
        ++ nl ++ u "</p>" ++ nl ++ nl ++ u "<hr>" ++ nl ++ nl).
Proof.
  intros H. unfold render_bibliography. rewrite H. reflexivity.
Qed.

End Sections.

Lemma section_years_exact_witness :
  section_years latin1_runtime years_example None
  = Ok [u "2021"; u "2019"; u "2005"; u "undated"] /\
  NoDup [u "2021"; u "2019"; u "2005"; u "undated"].
Proof.
  assert (H : section_years latin1_runtime years_example None
              = Ok [u "2021"; u "2019"; u "2005"; u "undated"])
    by reflexivity.
  split; [exact H|].
  exact (proj1 (section_years_exact latin1_runtime years_example None _ H)).
Defined.

Lemma render_bibliography_nothing_visible_witness :
  render_bibliography latin1_runtime years_example (Some (u "Bond"))
  = Ok (u "<p class=" ++ dq ++ u "bib-nav" ++ dq ++ u ">" ++ nl ++ u "  "
        ++ nl ++ u "</p>" ++ nl ++ nl ++ u "<hr>" ++ nl ++ nl).
Proof.
  apply (render_bibliography_nothing_visible latin1_runtime years_example
                                             (Some (u "Bond"))).
  reflexivity.
Defined.

(** ** Building and loading entries *)

Section Building.

Variable rt : Runtime.

Lemma find_all_false {A : Type} (p : A -> bool) (l : list A) :
  (forall x, In x l -> p x = false) -> find p l = None.
Proof.
  induction l as [|a r IH]; intros H; cbn [find]; auto.
  rewrite (H a (or_introl eq_refl)). apply IH. intros x Hx. apply H. now right.
Qed.

Lemma build_fold_lookup (name : str) (l : list bib_field) (init : dict) :
  dict_get
    (fold_left (fun d field =>
                  dict_set d (str_lower rt (field_key field))
                           (match field_value field with
                            | Some v => v
                            | None => []
                            end)) l init) name
  = match find (fun f => str_eqb (str_lower rt (field_key f)) name) (rev l) with
    | Some f => Some (stored_value f)
    | None => dict_get init name
    end.
Proof.
  induction l as [|f l IH] using rev_ind; [reflexivity|].
  rewrite fold_left_app, rev_app_distr. cbn [fold_left rev app find].
  destruct (str_eqb (str_lower rt (field_key f)) name) eqn:E.
  - apply str_eqb_eq in E. rewrite <- E. apply dict_get_set_same.
  - apply str_eqb_neq in E. rewrite dict_get_set_other by assumption.
    exact IH.
Qed.

(** X13. Looking a name up in a built entry gives the value of the last
    field of the parsed entry whose lower-cased name it is (a later
    duplicate replaces an earlier one, a field without value is stored as
    the empty text); a name no field has is absent, except the two
    reserved names, which give the lower-cased type and the key. Every
    name stored is a lower-cased field name or reserved. *)
Theorem build_entry_lookup (entry : bib_entry) (name : str) :
  dict_get (build_entry rt entry) name
  = match find (fun f => str_eqb (str_lower rt (field_key f)) name)
               (rev (fields entry)) with
    | Some f => Some (stored_value f)
    | None =>
        if str_eqb (u "_type") name then Some (str_lower rt (entry_type entry))
        else if str_eqb (u "_key") name then Some (key entry)
        else None
    end /\
  (In name (map fst (build_entry rt entry)) ->
   name = u "_type" \/ name = u "_key" \/
   exists f, In f (fields entry) /\ name = str_lower rt (field_key f)).
Proof.
  assert (H : dict_get (build_entry rt entry) name
  = match find (fun f => str_eqb (str_lower rt (field_key f)) name)
               (rev (fields entry)) with
    | Some f => Some (stored_value f)
    | None =>
        if str_eqb (u "_type") name then Some (str_lower rt (entry_type entry))
        else if str_eqb (u "_key") name then Some (key entry)
        else None
    end).
  { unfold build_entry. rewrite build_fold_lookup. reflexivity. }
  split; [exact H|].
  intros Hin.
  destruct (dict_get (build_entry rt entry) name) as [v|] eqn:Eg.
  2:{ apply dict_get_none_keys in Eg. contradiction. }
  rewrite H in Eg.
  destruct (find _ (rev (fields entry))) as [f|] eqn:Ef.
  - apply find_some in Ef as [Hf Hn]. apply str_eqb_eq in Hn.
    right. right. exists f. split; [now apply in_rev | now symmetry].
  - destruct (str_eqb (u "_type") name) eqn:E1;
      [apply str_eqb_eq in E1; now left|].
    destruct (str_eqb (u "_key") name) eqn:E2;
      [apply str_eqb_eq in E2; right; now left | discriminate].
Qed.

Lemma build_entry_reserved (entry : bib_entry) :
  plain_fields rt entry ->
  dict_get (build_entry rt entry) (u "_key") = Some (key entry) /\
  dict_get (build_entry rt entry) (u "_type")
  = Some (str_lower rt (entry_type entry)).
Proof.
  intros Hp. unfold build_entry. rewrite !build_fold_lookup.
  rewrite !find_all_false; [split; reflexivity | |];
    intros f Hf; apply in_rev, Hp in Hf as [H1 H2];
    now apply str_eqb_neq.
Qed.

(** X14. Loading keeps the entries in the order of the parsed library,
    one entry for each parsed one, each with its citation key as parsed
    and its type in lower case (no field being itself named [_key] or
    [_type]). *)
Theorem load_keeps_order_and_keys (library : list bib_entry) :
  (forall b, In b library -> plain_fields rt b) ->
  exists out,
    load_bibliography rt library = Ok out /\
    length out = length library /\
    map citation_key out = map key library /\
    map (fun e => get_or e (u "_type") []) out
    = map (fun b => str_lower rt (entry_type b)) library.
Proof.
  intros Hp.
  destruct (load_bibliography_runs rt library) as (emap & Hemap & Hload).
  set (entries := map (build_entry rt) library) in *.
  set (out := fold_left (resolve_step emap) (seq 0 (length entries)) entries)
    in *.
  assert (Hlen : length out = length library).
  { unfold out. rewrite resolve_fold_length. unfold entries.
    apply length_map. }
  assert (Hat : forall i b, nth_error library i = Some b ->
            exists o, nth_error out i = Some o /\
                      citation_key o = key b /\
                      get_or o (u "_type") [] = str_lower rt (entry_type b)).
  { intros i b Hb.
    assert (He : nth_error entries i = Some (build_entry rt b)).
    { unfold entries. rewrite nth_error_map, Hb. reflexivity. }
    destruct (resolve_fold_entry emap entries i _ He) as (store & Ho & _).
    exists (turn emap store (build_entry rt b)). split; [exact Ho|].
    destruct (build_entry_reserved b (Hp b (nth_error_In _ _ Hb))) as [Hk Ht].
    unfold citation_key, get_or.
    rewrite !turn_reserved by reflexivity. now rewrite Hk, Ht. }
  exists out. split; [exact Hload|]. split; [exact Hlen|].
  split; apply nth_error_ext; intros i; rewrite !nth_error_map;
    (destruct (nth_error library i) as [b|] eqn:Eb;
     [ destruct (Hat i b Eb) as (o & -> & Hk & Ht); cbn [option_map];
       now rewrite ?Hk, ?Ht
     | apply nth_error_None in Eb;
       assert (Hn : nth_error out i = None) by (apply nth_error_None; lia);
       now rewrite Hn ]).
Qed.

(** X15. A library in which every crossref field is missing, blank, or
    names a key no entry has, is loaded as built: the resolution pass
    changes nothing. *)
Theorem load_without_crossref (library : list bib_entry) :
  (forall b, In b library ->
             crossref_of (build_entry rt b) = [] \/
             last_pos (crossref_of (build_entry rt b))
                      (map (build_entry rt) library) = None) ->
  load_bibliography rt library = Ok (map (build_entry rt) library).
Proof.
  intros H.
  destruct (load_bibliography_runs rt library) as (emap & Hemap & Hload).
  rewrite Hload. f_equal.
  set (entries := map (build_entry rt) library) in *.
  apply nth_error_ext. intros i.
  destruct (nth_error entries i) as [e|] eqn:Ee.
  - destruct (resolve_fold_entry emap entries i e Ee) as (store & -> & _).
    f_equal. unfold turn.
    assert (Hin : exists b, In b library /\ e = build_entry rt b).
    { apply nth_error_In in Ee. unfold entries in Ee.
      apply in_map_iff in Ee as (b & <- & Hb). eauto. }
    destruct Hin as (b & Hb & ->).
    destruct (H b Hb) as [-> | Hn]; [reflexivity|].
    destruct (negb _); auto.
    now rewrite (entry_map_get _ _ _ Hemap), Hn.
  - apply nth_error_None. rewrite resolve_fold_length.
    now apply nth_error_None.
Qed.

End Building.

Lemma load_keeps_order_and_keys_witness :
  exists out,
    load_bibliography latin1_runtime chain_library = Ok out /\
    length out = length chain_library /\
    map citation_key out = map key chain_library /\
    map (fun e => get_or e (u "_type") []) out
    = map (fun b => str_lower latin1_runtime (entry_type b)) chain_library.
Proof.
  apply (load_keeps_order_and_keys latin1_runtime chain_library).
  intros b Hb f Hf. cbn in Hb.
  destruct Hb as [<-|[<-|[<-|[]]]]; cbn in Hf;
    repeat (destruct Hf as [<-|Hf]; [split; discriminate|]); destruct Hf.
Defined.

Lemma load_without_crossref_witness :
  load_bibliography latin1_runtime bond_library
  = Ok (map (build_entry latin1_runtime) bond_library).
Proof.
  apply (load_without_crossref latin1_runtime bond_library).
  intros b Hb. cbn in Hb. destruct Hb as [<-|[]]. left. reflexivity.
Defined.

(** X16. Inheriting from a parent never removes or reorders a field of the
    child: the child's field names stay, in their order, and the names
    added after them are non-reserved names of the parent that the child
    did not have. *)
Theorem inherit_appends (parent e : dict) :
  exists added,
    map fst (inherit parent e) = map fst e ++ added /\
    forall f, In f added ->
              In f (map fst parent) /\ reserved f = false /\
              ~ In f (map fst e).
Proof.
  revert e. unfold inherit.
  induction parent as [|[g v] r IH]; intros e; cbn [fold_left].
  - exists []. split; [now rewrite app_nil_r | intros f []].
  - destruct (IH (inherit_field e (g, v))) as (added & Hk & Ha).
    assert (Hstep : map fst (inherit_field e (g, v)) = map fst e \/
                    (map fst (inherit_field e (g, v)) = map fst e ++ [g] /\
                     reserved g = false /\ ~ In g (map fst e))).
    { unfold inherit_field, reserved.
      destruct (startswith (u "_") g) eqn:Er; [now left|].
      destruct (missing e g); [|now left].
      rewrite dict_set_keys.
      destruct (existsb (str_eqb g) (map fst e)) eqn:Ex; [now left|].
      right. split; [reflexivity|]. split; [reflexivity|].
      intros Hin. apply existsb_str_In in Hin. congruence. }
    destruct Hstep as [Hs | (Hs & Hr & Hn)]; rewrite Hs in Hk, Ha.
    + exists added. split; [exact Hk|].
      intros f Hf. destruct (Ha f Hf) as (H1 & H2 & H3).
      split; [now right | auto].
    + exists (g :: added). split.
      * rewrite Hk, <- app_assoc. reflexivity.
      * intros f [<-|Hf]; [split; [now left | auto]|].
        destruct (Ha f Hf) as (H1 & H2 & H3).
        split; [now right|]. split; [exact H2|].
        intros Hin. apply H3. apply in_or_app. now left.
Qed.

(** ** The navigation bar *)

Section NavRows.

Variable rt : Runtime.

Lemma zassoc_get_set_same {V : Type} (d : list (Z * V)) (k : Z) (v : V) :
  assoc_get Z.eqb (assoc_set Z.eqb d k v) k = Some v.
Proof.
  induction d as [|[k' v'] r IH]; cbn [assoc_set assoc_get].
  - now rewrite Z.eqb_refl.
  - destruct (k' =? k)%Z eqn:E; cbn [assoc_get]; rewrite E; auto.
Qed.

Lemma zassoc_get_set_other {V : Type} (d : list (Z * V)) (k k2 : Z) (v : V) :
  k <> k2 -> assoc_get Z.eqb (assoc_set Z.eqb d k v) k2 = assoc_get Z.eqb d k2.
Proof.
  intros Hne.
  induction d as [|[k' v'] r IH]; cbn [assoc_set assoc_get].
  - destruct (k =? k2)%Z eqn:E; auto. apply Z.eqb_eq in E. contradiction.
  - destruct (k' =? k)%Z eqn:E; cbn [assoc_get].
    + apply Z.eqb_eq in E. subst k'.
      destruct (k =? k2)%Z eqn:E2; auto. apply Z.eqb_eq in E2. contradiction.
    + now rewrite IH.
Qed.

Lemma zassoc_set_keys {V : Type} (d : list (Z * V)) (k : Z) (v : V) :
  map fst (assoc_set Z.eqb d k v) =
  if existsb (Z.eqb k) (map fst d) then map fst d else map fst d ++ [k].
Proof.
  induction d as [|[k' v'] r IH]; cbn [assoc_set map fst existsb app]; auto.
  destruct (k' =? k)%Z eqn:E; cbn [map fst].
  - rewrite Z.eqb_sym in E. now rewrite E.
  - rewrite IH. rewrite Z.eqb_sym in E. rewrite E. cbn [orb].
    now destruct (existsb (Z.eqb k) (map fst r)).
Qed.

Lemma zbucket_append_get (bd : list (Z * list str)) (k d : Z) (y : str) :
  bucket Z.eqb (bucket_append Z.eqb bd k y) d
  = if (k =? d)%Z then bucket Z.eqb bd d ++ [y] else bucket Z.eqb bd d.
Proof.
  unfold bucket, bucket_append.
  destruct (k =? d)%Z eqn:E.
  - apply Z.eqb_eq in E. subst d. rewrite zassoc_get_set_same.
    now destruct (assoc_get Z.eqb bd k).
  - apply Z.eqb_neq in E. now rewrite zassoc_get_set_other.
Qed.

Lemma zexistsb_In (k : Z) (l : list Z) : existsb (Z.eqb k) l = true <-> In k l.
Proof.
  rewrite existsb_exists. split.
  - intros (x & Hx & E). apply Z.eqb_eq in E. now subst.
  - intros H. exists k. split; auto. apply Z.eqb_refl.
Qed.

Lemma zbucket_append_keys (bd : list (Z * list str)) (k : Z) (y : str) :
  (forall d, In d (map fst (bucket_append Z.eqb bd k y))
             <-> In d (map fst bd) \/ d = k) /\
  (NoDup (map fst bd) -> NoDup (map fst (bucket_append Z.eqb bd k y))).
Proof.
  unfold bucket_append. rewrite zassoc_set_keys.
  destruct (existsb (Z.eqb k) (map fst bd)) eqn:E.
  - apply zexistsb_In in E. split; auto.
    intros d. split; [tauto | intros [H| ->]; auto].
  - split.
    + intros d. rewrite in_app_iff. cbn [In]. intuition congruence.
    + intros Hn. apply NoDup_app; auto.
      * repeat constructor. cbn. tauto.
      * intros z Hz [<-|[]]. apply zexistsb_In in Hz. congruence.
Qed.

Lemma decade_fold_raise (l : list str) (x : exn) :
  fold_left (decade_step rt) l (Raise x) = Raise x.
Proof. induction l as [|y r IH]; cbn [fold_left]; auto. Qed.

Lemma decade_fold_spec (l : list str) :
  forall acc bd,
    fold_left (decade_step rt) l (Ok acc) = Ok bd ->
    (forall y, In y l -> exists n, py_int rt y = Ok n) /\
    (forall d, bucket Z.eqb bd d
               = bucket Z.eqb acc d ++ filter (in_decade rt d) l) /\
    (NoDup (map fst acc) -> NoDup (map fst bd)) /\
    (forall d, In d (map fst bd) <->
               In d (map fst acc) \/
               exists y, In y l /\ in_decade rt d y = true).
Proof.
  induction l as [|y r IH]; intros acc bd H; cbn [fold_left] in H.
  - injection H as <-. repeat split.
    + intros y [].
    + intros d. cbn [filter]. now rewrite app_nil_r.
    + auto.
    + tauto.
    + intros [H|(y & [] & _)]. exact H.
  - unfold decade_step at 2 in H. cbn [bind] in H.
    destruct (py_int rt y) as [n|x] eqn:En; cbn [bind] in H;
      [|rewrite decade_fold_raise in H; discriminate].
    destruct (IH _ _ H) as (H1 & H2 & H3 & H4).
    destruct (zbucket_append_keys acc ((n / 10) * 10)%Z y) as [Hk Hnd].
    assert (Hy : forall d, in_decade rt d y = ((n / 10) * 10 =? d)%Z)
      by (intros d; unfold in_decade; now rewrite En).
    repeat split.
    + intros z [<-|Hz]; eauto.
    + intros d. rewrite H2, zbucket_append_get. cbn [filter]. rewrite Hy.
      destruct ((n / 10) * 10 =? d)%Z; [now rewrite <- app_assoc | auto].
    + auto.
    + intros Hd. apply H4 in Hd as [Hd|(z & Hz & Hzd)].
      * apply Hk in Hd as [Hd| ->]; [now left|].
        right. exists y. split; [now left|]. rewrite Hy. apply Z.eqb_refl.
      * right. exists z. split; [now right | exact Hzd].
    + intros [Hd|(z & [<-|Hz] & Hzd)]; apply H4.
      * left. apply Hk. now left.
      * left. apply Hk. right. rewrite Hy in Hzd.
        apply Z.eqb_eq in Hzd. now symmetry.
      * right. eauto.
Qed.

Lemma sorted_filter {A : Type} (R : A -> A -> Prop) (p : A -> bool)
      (l : list A) :
  StronglySorted R l -> StronglySorted R (filter p l).
Proof.
  induction 1 as [|a l Hs IH Ha]; cbn [filter]; [constructor|].
  destruct (p a); auto. constructor; auto.
  rewrite Forall_forall in *. intros x Hx. apply filter_In in Hx as [Hx _].
  auto.
Qed.

Lemma sorted_weaken {A : Type} (R R' : A -> A -> Prop) (l : list A) :
  StronglySorted R l ->
  (forall a b, In a l -> In b l -> R a b -> R' a b) ->
  StronglySorted R' l.
Proof.
  induction 1 as [|a l Hs IH Ha]; intros H; [constructor|].
  constructor.
  - apply IH. intros x y Hx Hy. apply H; now right.
  - rewrite Forall_forall in *. intros x Hx.
    apply H; [now left | now right | auto].
Qed.

Lemma sorted_map {A B : Type} (R : B -> B -> Prop) (g : A -> B) (l : list A) :
  StronglySorted (fun a b => R (g a) (g b)) l -> StronglySorted R (map g l).
Proof.
  induction 1 as [|a l Hs IH Ha]; cbn [map]; constructor; auto.
  rewrite Forall_forall in *. intros y Hy.
  apply in_map_iff in Hy as (x & <- & Hx). auto.
Qed.

Lemma sorted_strict {A : Type} (l : list (Z * A)) :
  StronglySorted desc l -> NoDup (map fst l) ->
  StronglySorted (fun p q => (fst q < fst p)%Z) l.
Proof.
  induction 1 as [|a l Hs IH Ha]; intros Hn; [constructor|].
  cbn [map] in Hn. inversion Hn as [|? ? Hnotin Hnd]; subst.
  constructor; auto.
  rewrite Forall_forall in *. intros q Hq.
  pose proof (Ha q Hq) as Hle. unfold desc in Hle.
  assert (fst q <> fst a).
  { intros E. apply Hnotin. rewrite <- E. now apply in_map. }
  lia.
Qed.

(** The years come out of the sort in descending order of their keys. *)
Lemma sorted_years_desc (by_year : list (str * list dict)) (years : list str) :
  sorted_years rt by_year = Ok years ->
  StronglySorted (fun a b => exists ka kb, year_key rt a = Ok ka /\
                                           year_key rt b = Ok kb /\
                                           (kb <= ka)%Z) years.
Proof.
  unfold sorted_years.
  destruct (mapM _ (map fst by_year)) as [keyed|] eqn:Ek; [|discriminate].
  cbn [bind]. intros H. injection H as <-.
  destruct (keyed_years rt _ _ Ek) as [_ Hall].
  apply sorted_map.
  eapply sorted_weaken; [apply sort_desc_sorted|].
  intros a b Ha Hb Hab.
  assert (Hperm : forall p, In p (sort_desc keyed) -> In p keyed)
    by (intros p; apply Permutation_in, sort_desc_perm).
  rewrite Forall_forall in Hall.
  exists (fst a), (fst b). repeat split; auto.
Qed.

Lemma nav_of_rows (years : list str) :
  nav_of rt years =
  rows <- nav_rows rt years ;;
  Ok (u "<p class=" ++ dq ++ u "bib-nav" ++ dq ++ u ">" ++ nl ++ u "  "
      ++ join (nl ++ u "  <br>" ++ nl ++ u "  ")
              (map (fun row => join (u " " ++ middle_dot ++ u " ")
                                    (map year_link (snd row))) rows)
      ++ nl ++ u "</p>").
Proof.
  unfold nav_of, nav_rows.
  destruct (group_by_decade rt (filter (isdigit rt) years)) as [bd|];
    cbn [bind]; auto.
  set (decades := map snd (sort_desc _)).
  rewrite map_map. reflexivity.
Qed.

End NavRows.

(** X17. The navigation bar has one row for each decade that holds a year
    of digits among the sections, the decades in strictly descending order;
    the row of a decade holds exactly the years of that decade, each once,
    in descending order of their numbers (as the comment in the source
    says); a year that is no number, such as the undated bucket, is in no
    row. *)
Theorem nav_rows_sorted (rt : Runtime) (by_year : list (str * list dict))
        (years : list str) (rows : list (Z * list str)) :
  sorted_years rt by_year = Ok years ->
  nav_rows rt years = Ok rows ->
  nav_of rt years
  = Ok (u "<p class=" ++ dq ++ u "bib-nav" ++ dq ++ u ">" ++ nl ++ u "  "
        ++ join (nl ++ u "  <br>" ++ nl ++ u "  ")
                (map (fun row => join (u " " ++ middle_dot ++ u " ")
                                      (map year_link (snd row))) rows)
        ++ nl ++ u "</p>") /\
  StronglySorted (fun r1 r2 => (fst r2 < fst r1)%Z) rows /\
  (forall d row, In (d, row) rows ->
     row = filter (in_decade rt d) (filter (isdigit rt) years) /\
     row <> [] /\
     StronglySorted (number_desc rt) row) /\
  (forall y, In y years -> isdigit rt y = true ->
     exists d row, In (d, row) rows /\ In y row).
Proof.
  intros Hy Hrows.
  split; [rewrite nav_of_rows, Hrows; reflexivity|].
  unfold nav_rows in Hrows.
  set (nav_years := filter (isdigit rt) years) in *.
  destruct (group_by_decade rt nav_years) as [bd|] eqn:Eg; [|discriminate].
  cbn [bind] in Hrows. injection Hrows as <-.
  destruct (decade_fold_spec rt nav_years [] bd Eg) as (Hint & Hb & Hnd & Hkeys).
  specialize (Hnd (NoDup_nil _)).
  set (pairs := map (fun d : Z => (d, d)) (map fst bd)) in *.
  assert (Hperm : Permutation (sort_desc pairs) pairs) by apply sort_desc_perm.
  assert (Hdiag : forall p, In p (sort_desc pairs) ->
                            fst p = snd p /\ In (snd p) (map fst bd)).
  { intros p Hp. apply (Permutation_in _ Hperm) in Hp.
    unfold pairs in Hp. apply in_map_iff in Hp as (d & <- & Hd). auto. }
  assert (Hfst : map fst pairs = map fst bd).
  { unfold pairs. rewrite map_map. cbn [fst]. apply map_id. }
  split.
  { rewrite map_map. apply sorted_map. cbn [fst].
    eapply sorted_weaken.
    - apply sorted_strict; [apply sort_desc_sorted|].
      eapply Permutation_NoDup;
        [apply Permutation_map, Permutation_sym, Hperm|].
      now rewrite Hfst.
    - intros a b Ha Hb' Hlt. cbn beta in Hlt.
      destruct (Hdiag a Ha) as [<- _]. destruct (Hdiag b Hb') as [<- _].
      exact Hlt. }
  assert (Hrow : forall d, bucket Z.eqb bd d = filter (in_decade rt d) nav_years)
    by (intros d; now rewrite Hb).
  assert (Hsorted : StronglySorted (number_desc rt) nav_years).
  { eapply sorted_weaken.
    - apply sorted_filter, (sorted_years_desc rt by_year years Hy).
    - intros a b Ha Hb' (ka & kb & Hka & Hkb & Hle).
      apply filter_In in Ha as [_ Ha]. apply filter_In in Hb' as [_ Hb'].
      unfold year_key in Hka, Hkb. rewrite Ha in Hka. rewrite Hb' in Hkb.
      exists ka, kb. auto. }
  split.
  - intros d row Hin. rewrite map_map in Hin.
    apply in_map_iff in Hin as (p & E & Hp). injection E as <- <-.
    destruct (Hdiag p Hp) as [_ Hd].
    rewrite Hrow. split; [reflexivity|]. split.
    + apply Hkeys in Hd as [[]|(y & Hy' & Hyd)].
      intros E. assert (Hf : In y (filter (in_decade rt (snd p)) nav_years))
        by (apply filter_In; auto).
      rewrite E in Hf. destruct Hf.
    + now apply sorted_filter.
  - intros y Hin Hd.
    assert (Hn : In y nav_years) by (apply filter_In; auto).
    destruct (Hint y Hn) as [n En].
    set (d := ((n / 10) * 10)%Z).
    assert (Hyd : in_decade rt d y = true)
      by (unfold in_decade; rewrite En; apply Z.eqb_refl).
    assert (Hk : In d (map fst bd)) by (apply Hkeys; right; eauto).
    exists d, (bucket Z.eqb bd d). split.
    + rewrite map_map. apply in_map_iff.
      assert (Hp : In (d, d) (sort_desc pairs)).
      { apply (Permutation_in _ (Permutation_sym Hperm)).
        unfold pairs. apply in_map_iff. eauto. }
      exists (d, d). split; [reflexivity | exact Hp].
    + rewrite Hrow. apply filter_In. auto.
Qed.

Lemma nav_rows_sorted_witness :
  sorted_years latin1_runtime (group_by_year years_example)
  = Ok [u "2021"; u "2019"; u "2005"; u "undated"] /\
  nav_rows latin1_runtime [u "2021"; u "2019"; u "2005"; u "undated"]
  = Ok [(2020%Z, [u "2021"]); (2010%Z, [u "2019"]); (2000%Z, [u "2005"])] /\
  StronglySorted (fun r1 r2 : Z * list str => (fst r2 < fst r1)%Z)
    [(2020%Z, [u "2021"]); (2010%Z, [u "2019"]); (2000%Z, [u "2005"])].
Proof.
  assert (H1 : sorted_years latin1_runtime (group_by_year years_example)
               = Ok [u "2021"; u "2019"; u "2005"; u "undated"])
    by reflexivity.
  assert (H2 : nav_rows latin1_runtime
                 [u "2021"; u "2019"; u "2005"; u "undated"]
               = Ok [(2020%Z, [u "2021"]); (2010%Z, [u "2019"]);
                     (2000%Z, [u "2005"])])
    by reflexivity.
  split; [exact H1|]. split; [exact H2|].
  exact (proj1 (proj2 (nav_rows_sorted latin1_runtime _ _ _ H1 H2))).
Defined.

(** ** The command line, all outcomes *)



(** ** The routes *)

(** X19. [show] answers for exactly the five pages of the navigation
    table, with the template named after the page and the title and
    description of its table row; for any other page name it raises
    [KeyError] before a template is looked up. The publications route
    gives what [show] gives for "pubs", with the rendered bibliography
    added. *)
Theorem show_known_pages (page : str) (bib_html : str) :
  (In page nav_pages ->
   exists info title description,
     assoc_get str_eqb nav page = Some info /\
     dict_get info (u "name") = Some title /\
     dict_get info (u "desc") = Some description /\
     show page = Ok {| template := page ++ u ".html"; ctx_page := page;
                       ctx_title := title; ctx_description := description;
                       ctx_bib_html := None |}) /\
  (~ In page nav_pages -> show page = Raise KeyError) /\
  (exists call,
      show (u "pubs") = Ok call /\
      pubs bib_html = Ok {| template := template call;
                            ctx_page := ctx_page call;
                            ctx_title := ctx_title call;
                            ctx_description := ctx_description call;
                            ctx_bib_html := Some bib_html |}).
Proof.
  split; [|split].
  - intros H. cbn in H.
    destruct H as [<-|[<-|[<-|[<-|[<-|[]]]]]];
      eexists; eexists; eexists; repeat split; reflexivity.
  - intros H. unfold show, nav_index.
    assert (G : forall d : list (str * dict),
               ~ In page (map fst d) -> assoc_get str_eqb d page = None).
    { induction d as [|[k v] r IH]; cbn [assoc_get map fst In]; auto.
      intros Hd. destruct (str_eqb k page) eqn:E.
      - apply str_eqb_eq in E. tauto.
      - apply IH. tauto. }
    now rewrite (G nav H).
  - eexists. split; reflexivity.
Qed.

(** ** The key-to-entry index, duplicates *)

(** X20. In the key-to-entry index a citation key stands for the last
    entry that carries it: when several entries share a key, a crossref to
    it reaches the last of them. Building the index raises [KeyError] only
    for an entry without [_key]. *)
Theorem entry_map_last_wins (entries : list dict) :
  (forall emap, entry_map entries = Ok emap ->
     forall k j,
       assoc_get str_eqb emap k = Some j <->
       exists p, nth_error entries j = Some p /\
                 dict_get p (u "_key") = Some k /\
                 forall j' p', j < j' -> nth_error entries j' = Some p' ->
                               dict_get p' (u "_key") <> Some k) /\
  (Forall has_key entries -> exists emap, entry_map entries = Ok emap) /\
  (forall x, entry_map entries = Raise x ->
             x = KeyError /\ ~ Forall has_key entries).
Proof.
  split; [|split].
  - intros emap Hemap k j. rewrite (entry_map_get _ _ k Hemap). split.
    + apply last_pos_some.
    + intros (p & Hp & Hk & Hlast).
      destruct (last_pos k entries) as [j0|] eqn:El.
      * destruct (last_pos_some _ _ _ El) as (p0 & Hp0 & Hk0 & Hlast0).
        f_equal. destruct (Nat.lt_trichotomy j0 j) as [Hlt|[Heq|Hgt]]; auto.
        -- exfalso. now apply (Hlast0 j p Hlt Hp).
        -- exfalso. now apply (Hlast j0 p0 Hgt Hp0).
      * exfalso. apply (last_pos_none _ _ El p); [|exact Hk].
        eapply nth_error_In; eauto.
  - intros H. apply (entry_map_from_total entries H 0 []).
  - intros x Hx.
    assert (G : forall es i m, entry_map_from i es m = Raise x -> x = KeyError).
    { induction es as [|e r IH]; intros i m H; cbn [entry_map_from] in H;
        [discriminate|].
      unfold dict_index in H. destruct (dict_get e (u "_key"));
        cbn [bind] in H; [eauto | congruence]. }
    split; [apply (G entries 0 [] Hx)|].
    intros Hall. destruct (entry_map_from_total entries Hall 0 []) as [m Hm].
    unfold entry_map in Hx. congruence.
Qed.

(** ** Every visible entry has its section *)

Section Coverage.

Variable rt : Runtime.

Lemma flat_map_filter_other (e : dict) (l : list dict) (ys : list str) :
  ~ In (year_of e) ys ->
  flat_map (fun y => filter (fun e' => str_eqb (year_of e') y) (e :: l)) ys
  = flat_map (fun y => filter (fun e' => str_eqb (year_of e') y) l) ys.
Proof.
  induction ys as [|y r IH]; intros H; cbn [flat_map]; auto.
  rewrite IH by (intros Hin; apply H; now right).
  cbn [filter]. destruct (str_eqb (year_of e) y) eqn:E; auto.
  apply str_eqb_eq in E. exfalso. apply H. now left.
Qed.

Lemma partition_by_year (l : list dict) (ys : list str) :
  NoDup ys -> (forall e, In e l -> In (year_of e) ys) ->
  Permutation
    (flat_map (fun y => filter (fun e => str_eqb (year_of e) y) l) ys) l.
Proof.
  intros Hnd. induction l as [|e r IH]; intros Hin.
  - clear. induction ys as [|y ys IH]; cbn [flat_map filter app]; auto.
  - destruct (in_split _ _ (Hin e (or_introl eq_refl))) as (ys1 & ys2 & E).
    assert (Hn : ~ In (year_of e) ys1 /\ ~ In (year_of e) ys2).
    { rewrite E in Hnd. apply NoDup_remove_2 in Hnd.
      rewrite in_app_iff in Hnd. tauto. }
    destruct Hn as [Hn1 Hn2].
    specialize (IH (fun e' He' => Hin e' (or_intror He'))).
    rewrite E in *. rewrite !flat_map_app in *. cbn [flat_map] in *.
    rewrite !flat_map_filter_other by assumption.
    cbn [filter]. rewrite str_eqb_refl. cbn [app].
    eapply Permutation_trans; [apply Permutation_sym, Permutation_middle|].
    now constructor.
Qed.

(** X21. Taken in the order of the output, the sections hold every visible
    entry, each in one section only: the entries of all sections together
    are a rearrangement of the visible entries. *)
Theorem sections_cover_entries (entries : list dict) (flt : option str)
        (years : list str) :
  section_years rt entries flt = Ok years ->
  Permutation
    (flat_map (bucket str_eqb
                 (group_by_year (visible_entries rt entries flt))) years)
    (visible_entries rt entries flt).
Proof.
  unfold section_years. intros H.
  destruct (sorted_years_keys rt _ _ H) as [Hperm _].
  rewrite group_by_year_keys in Hperm.
  rewrite (flat_map_ext _ _ (bucket_filter (visible_entries rt entries flt))).
  apply partition_by_year.
  - eapply Permutation_NoDup; [apply Permutation_sym, Hperm|].
    apply first_seen_NoDup.
  - intros e He. apply (Permutation_in _ (Permutation_sym Hperm)).
    apply first_seen_In, in_map_iff. eauto.
Qed.

End Coverage.

Lemma sections_cover_entries_witness :
  section_years latin1_runtime years_example None
  = Ok [u "2021"; u "2019"; u "2005"; u "undated"] /\
  Permutation
    (flat_map (bucket str_eqb
                 (group_by_year (visible_entries latin1_runtime years_example
                                                 None)))
              [u "2021"; u "2019"; u "2005"; u "undated"])
    (visible_entries latin1_runtime years_example None).
Proof.
  assert (H : section_years latin1_runtime years_example None
              = Ok [u "2021"; u "2019"; u "2005"; u "undated"])
    by reflexivity.
  split; [exact H|].
  exact (sections_cover_entries latin1_runtime years_example None _ H).
Defined.
